(** * breakc: sorting IPv4 addresses and filling small gaps inside a /24

    A shallow embedding of [breakc.py] and the properties of its
    conversion helpers, sorter, range filler and reader.

    Text model.  A Python [str] is modelled by [string]; a character is
    an 8-bit code point, so the development covers text whose code points
    lie below 256.  The character classes used by [str.strip],
    [str.isdigit] and [int] are the interpreter's tables restricted to
    that range.  Beyond it [str.isdigit] and [int] also accept the
    decimal digits of other scripts; a property that needs the digits to
    be [0] to [9] says so in a hypothesis.  Python integers are unbounded
    and modelled by [Z]. *)

From Stdlib Require Import ZArith List String Ascii Bool Lia.
From Stdlib Require Import Sorting.Sorted Sorting.Permutation.
From Stdlib Require Import Numbers.DecimalString Numbers.DecimalFacts.
From Stdlib Require Import Numbers.DecimalPos Numbers.DecimalN Numbers.DecimalZ.
Import ListNotations.

Open Scope string_scope.
Open Scope list_scope.
Open Scope Z_scope.

(** ** Exceptions *)

(** The two exceptions the program can end with: [ValueError], raised by
    [ip_to_int] and by [int], and [SystemExit], raised by [sys.exit]. *)
Inductive exn : Type :=
| ValueError
| SystemExit (code : Z).

Inductive exc (A : Type) : Type :=
| Ret (a : A)
| Raise (e : exn).
Arguments Ret {A} a.
Arguments Raise {A} e.

Definition bind {A B : Type} (m : exc A) (k : A -> exc B) : exc B :=
  match m with
  | Ret a => k a
  | Raise e => Raise e
  end.

Notation "x <- m ;; k" := (bind m (fun x => k))
  (at level 61, m at next level, right associativity).

(** [for x in l: st = body(st, x)], stopping at the first exception. *)
Fixpoint foldM {A S : Type} (body : S -> A -> exc S) (l : list A) (st : S)
  : exc S :=
  match l with
  | [] => Ret st
  | x :: xs => st' <- body st x ;; foldM body xs st'
  end.

(** [[f(x) for x in l]], evaluated left to right. *)
Fixpoint mapM {A B : Type} (f : A -> exc B) (l : list A) : exc (list B) :=
  match l with
  | [] => Ret []
  | x :: xs => y <- f x ;; ys <- mapM f xs ;; Ret (y :: ys)
  end.

(** [all(f(x) for x in l)]: stops at the first [False], and an exception
    raised by [f] before that point propagates. *)
Fixpoint allM {A : Type} (f : A -> exc bool) (l : list A) : exc bool :=
  match l with
  | [] => Ret true
  | x :: xs => b <- f x ;; if b then allM f xs else Ret false
  end.

(** ** Strings of the interpreter *)

Definition code (c : ascii) : Z := Z.of_N (N_of_ascii c).

(** Characters removed by [str.strip()]. *)
Definition is_space (c : ascii) : bool :=
  let n := code c in
  ((9 <=? n) && (n <=? 13)) || ((28 <=? n) && (n <=? 32))
  || (n =? 133) || (n =? 160).

(** Characters [int] skips around a literal: as [is_space], without the
    four separators U+001C..U+001F. *)
Definition is_int_space (c : ascii) : bool :=
  let n := code c in
  ((9 <=? n) && (n <=? 13)) || (n =? 32) || (n =? 133) || (n =? 160).

(** The value of a decimal digit, ['0'..'9']. *)
Definition digit_value (c : ascii) : option Z :=
  let n := code c in
  if (48 <=? n) && (n <=? 57) then Some (n - 48) else None.

(** Characters for which [str.isdigit] holds: the decimal digits and the
    superscripts U+00B2, U+00B3 and U+00B9, which are digits but not
    decimal. *)
Definition is_digit_char (c : ascii) : bool :=
  let n := code c in
  ((48 <=? n) && (n <=? 57)) || (n =? 178) || (n =? 179) || (n =? 185).

Fixpoint all_chars (p : ascii -> bool) (s : string) : bool :=
  match s with
  | EmptyString => true
  | String c r => p c && all_chars p r
  end.

(** [s.isdigit()] *)
Definition isdigit (s : string) : bool :=
  match s with
  | EmptyString => false
  | _ => all_chars is_digit_char s
  end.

Fixpoint lstrip_by (sp : ascii -> bool) (s : string) : string :=
  match s with
  | EmptyString => EmptyString
  | String c r => if sp c then lstrip_by sp r else s
  end.

Fixpoint rstrip_by (sp : ascii -> bool) (s : string) : string :=
  match s with
  | EmptyString => EmptyString
  | String c r =>
      match rstrip_by sp r with
      | EmptyString => if sp c then EmptyString else String c EmptyString
      | r' => String c r'
      end
  end.

(** [s.strip()] *)
Definition strip (s : string) : string := rstrip_by is_space (lstrip_by is_space s).

(** [s.split(sep)] for a one-character separator: never empty. *)
Fixpoint split (sep : ascii) (s : string) : list string :=
  match s with
  | EmptyString => [EmptyString]
  | String c r =>
      if Ascii.eqb c sep then EmptyString :: split sep r
      else match split sep r with
           | [] => [String c EmptyString]
           | p :: ps => String c p :: ps
           end
  end.

(** [sep.join(l)] *)
Fixpoint join (sep : string) (l : list string) : string :=
  match l with
  | [] => EmptyString
  | [x] => x
  | x :: xs => (x ++ sep ++ join sep xs)%string
  end.

(** Digits of an [int] literal after the first one; an underscore must
    stand between two digits. *)
Fixpoint int_digits (acc : Z) (s : string) : option Z :=
  match s with
  | EmptyString => Some acc
  | String c r =>
      if Ascii.eqb c "_" then
        match r with
        | EmptyString => None
        | String d r' =>
            match digit_value d with
            | Some v => int_digits (10 * acc + v) r'
            | None => None
            end
        end
      else
        match digit_value c with
        | Some v => int_digits (10 * acc + v) r
        | None => None
        end
  end.

Definition int_unsigned (s : string) : option Z :=
  match s with
  | EmptyString => None
  | String c r =>
      match digit_value c with
      | Some v => int_digits v r
      | None => None
      end
  end.

(** The interpreter's default bound on the number of digits of a
    decimal literal, [sys.int_info.default_max_str_digits]. *)
Definition int_max_str_digits : Z := 4300.

(** The number of decimal digits of a literal; underscores do not count,
    leading zeros do. *)
Fixpoint count_digits (s : string) : Z :=
  match s with
  | EmptyString => 0
  | String c r =>
      match digit_value c with
      | Some _ => 1 + count_digits r
      | None => count_digits r
      end
  end.

(** [int(s)]: surrounding white space is skipped, one sign is allowed,
    anything else that is not a decimal literal raises [ValueError], and
    so does a literal of more than [int_max_str_digits] digits. *)
Definition py_int (s : string) : exc Z :=
  let t := rstrip_by is_int_space (lstrip_by is_int_space s) in
  let '(neg, body) :=
    match t with
    | String "-" r => (true, r)
    | String "+" r => (false, r)
    | _ => (false, t)
    end in
  match int_unsigned body with
  | Some n =>
      if int_max_str_digits <? count_digits body then Raise ValueError
      else Ret (if neg then - n else n)
  | None => Raise ValueError
  end.

(** [str(n)], as an f-string renders an integer.  The program renders
    values from 0 to 255 only, far below the bound on digits. *)
Definition py_str (n : Z) : string := NilZero.string_of_int (Z.to_int n).

(** [list(range(lo, hi))] *)
Definition py_range (lo hi : Z) : list Z :=
  map (fun k => lo + Z.of_nat k) (seq 0 (Z.to_nat (hi - lo))).

(** [l.sort()] on integers: the ascending rearrangement of [l]. *)
Fixpoint insert_sorted (x : Z) (l : list Z) : list Z :=
  match l with
  | [] => [x]
  | y :: ys => if x <=? y then x :: l else y :: insert_sorted x ys
  end.

Fixpoint list_sort (l : list Z) : list Z :=
  match l with
  | [] => []
  | x :: xs => insert_sorted x (list_sort xs)
  end.

(** ** The program *)

Definition ip_to_int (ip : string) : exc Z :=
  let parts := split "." ip in
  if negb (Nat.eqb (List.length parts) 4) then Raise ValueError
  else
    a <- py_int (nth 0 parts "") ;;
    b <- py_int (nth 1 parts "") ;;
    c <- py_int (nth 2 parts "") ;;
    d <- py_int (nth 3 parts "") ;;
    Ret (Z.shiftl a 24 + Z.shiftl b 16 + Z.shiftl c 8 + d).

Definition int_to_ip (ip_int : Z) : string :=
  (py_str (Z.land (Z.shiftr ip_int 24) 255) ++ "." ++
   py_str (Z.land (Z.shiftr ip_int 16) 255) ++ "." ++
   py_str (Z.land (Z.shiftr ip_int 8) 255) ++ "." ++
   py_str (Z.land ip_int 255))%string.

Definition sort_ips (ip_list : list string) : exc (list string) :=
  ip_ints <- mapM ip_to_int ip_list ;;
  Ret (map int_to_ip (list_sort ip_ints)).

Definition generate_ip_range (start_ip end_ip : string) : exc (list string) :=
  start_int <- ip_to_int start_ip ;;
  end_int <- ip_to_int end_ip ;;
  Ret (map int_to_ip (py_range start_int (end_int + 1))).

(** The variables [process_ips] carries round its loop. *)
Record loop_state : Type := mk_loop_state {
  result : list string;
  previous_ip : string;
  previous_int : Z;
  start_ip : string;
  end_ip : string
}.

(** ['.'.join(ip.split('.')[:3])] *)
Definition network (ip : string) : string := join "." (firstn 3 (split "." ip)).

(** The test that lets [current_ip] extend the open segment. *)
Definition extends (previous_ip : string) (previous_int : Z)
  (current_ip : string) (current_int : Z) : bool :=
  let diff := current_int - previous_int in
  String.eqb (network current_ip) (network previous_ip)
  && ((0 <? diff) && (diff <=? 6)).

(** Output of one segment, appended to [result]: the address itself when
    the segment was not extended, the whole range otherwise. *)
Definition emit_segment (result : list string) (start_ip end_ip : string)
  : exc (list string) :=
  if String.eqb start_ip end_ip then Ret (result ++ [start_ip])
  else r <- generate_ip_range start_ip end_ip ;; Ret (result ++ r).

Definition loop_body (st : loop_state) (current_ip : string) : exc loop_state :=
  current_int <- ip_to_int current_ip ;;
  if extends (previous_ip st) (previous_int st) current_ip current_int then
    Ret (mk_loop_state (result st) current_ip current_int (start_ip st) current_ip)
  else
    result' <- emit_segment (result st) (start_ip st) (end_ip st) ;;
    Ret (mk_loop_state result' current_ip current_int current_ip current_ip).

Definition process_ips (sorted_ips : list string) : exc (list string) :=
  match sorted_ips with
  | [] => Ret []
  | first :: rest =>
      first_int <- ip_to_int first ;;
      st <- foldM loop_body rest (mk_loop_state [] first first_int first first) ;;
      emit_segment (result st) (start_ip st) (end_ip st)
  end.

(** The warnings [read_ip_file] writes to the error stream while it
    goes on reading. *)
Inductive event : Type :=
| Warn_invalid_ip (ip : string).

(** [part.isdigit() and 0 <= int(part) <= 255] *)
Definition octet_ok (part : string) : exc bool :=
  if isdigit part then
    v <- py_int part ;; Ret ((0 <=? v) && (v <=? 255))
  else Ret false.

(** [len(parts) == 4 and all(... for part in parts)] *)
Definition valid_ip (ip : string) : exc bool :=
  let parts := split "." ip in
  if Nat.eqb (List.length parts) 4 then allM octet_ok parts else Ret false.

(** The body of the loop over the lines of the file: the state is the
    list [ips] and the warnings printed so far. *)
Definition read_line (st : list string * list event) (line : string)
  : exc (list string * list event) :=
  let '(ips, log) := st in
  let ip := strip line in
  match ip with
  | EmptyString => Ret st
  | _ =>
      ok <- valid_ip ip ;;
      if ok then Ret (ips ++ [ip], log)
      else Ret (ips, log ++ [Warn_invalid_ip ip])
  end.

(** What the path given to [read_ip_file] leads to. *)
Inductive text_file : Type :=
| Missing
    (** no such file: [open] raises [FileNotFoundError] *)
| Unreadable (read : list string)
    (** [open] or the iteration over the file raises another exception
        (no permission, a directory, bytes that are not UTF-8) once the
        lines [read] have been delivered *)
| Readable (lines : list string).
    (** the file is read to its end and has these lines *)

(** [read_ip_file].  [FileNotFoundError] is reported and followed by
    [sys.exit(1)].  Any other exception, of the file or of the loop, is
    caught by [except Exception], which reports it and calls
    [sys.exit(1)]; the result is then [SystemExit 1] and the list read so
    far is lost. *)
Definition read_ip_file (file : text_file) : exc (list string * list event) :=
  match file with
  | Missing => Raise (SystemExit 1)
  | Unreadable read =>
      match foldM read_line read ([], []) with
      | Ret _ => Raise (SystemExit 1)
      | Raise _ => Raise (SystemExit 1)
      end
  | Readable lines =>
      match foldM read_line lines ([], []) with
      | Ret st => Ret st
      | Raise _ => Raise (SystemExit 1)
      end
  end.

(** ** Vocabulary of the properties *)

Definition not_dot (c : ascii) : bool := negb (Ascii.eqb c ".").

(** A list of addresses together with their integer values. *)
Definition ints_of (l : list string) (ns : list Z) : Prop :=
  Forall2 (fun ip n => ip_to_int ip = Ret n) l ns.

Definition sorted (l : list Z) : Prop := Sorted Z.le l.

(** An octet is written without leading zeros. *)
Definition no_leading_zero (p : string) : bool :=
  match p with
  | String "0" (String _ _) => false
  | _ => true
  end.

(** An address is canonical when no octet has a leading zero. *)
Definition canonical (ip : string) : bool :=
  forallb no_leading_zero (split "." ip).

(** The statement of C6 as the specification has it: every address the
    reader accepts is reproduced by the two conversions. *)
Definition roundtrip_on_valid : Prop :=
  forall s, valid_ip s = Ret true ->
  exists n, ip_to_int s = Ret n /\ int_to_ip n = s.

(** The second half of C9 as the specification has it: four numeric
    parts, whatever their range, are combined with bitwise or. *)
Definition four_parts_or : Prop :=
  forall s p0 p1 p2 p3 a b c d,
    split "." s = [p0; p1; p2; p3] ->
    py_int p0 = Ret a -> py_int p1 = Ret b ->
    py_int p2 = Ret c -> py_int p3 = Ret d ->
    ip_to_int s =
    Ret (Z.lor (Z.lor (Z.lor (Z.shiftl a 24) (Z.shiftl b 16)) (Z.shiftl c 8)) d).

Definition valid_list (l : list string) : Prop :=
  Forall (fun ip => valid_ip ip = Ret true) l.

(** What closing the segment from [start_ip] to [end_ip] appends, given
    the values [si] and [ei] of its two ends. *)
Definition segment_out (start_ip : string) (si : Z) (end_ip : string) (ei : Z)
  : list string :=
  if String.eqb start_ip end_ip then [start_ip]
  else map int_to_ip (py_range si (ei + 1)).

(** The loop of [process_ips] followed by the closing of the last
    segment, on addresses paired with their values: [start_ip] opened the
    current segment and [prev] is the address read last. *)
Fixpoint fill (start_ip : string) (si : Z) (prev : string) (pi : Z)
  (rest : list (string * Z)) : list string :=
  match rest with
  | [] => segment_out start_ip si prev pi
  | (c, ci) :: rest' =>
      if extends prev pi c ci then fill start_ip si c ci rest'
      else segment_out start_ip si prev pi ++ fill c ci c ci rest'
  end.

Definition item_ok (x : string * Z) : Prop := ip_to_int (fst x) = Ret (snd x).

(** Every address of the list is one [ip_to_int] converts. *)
Definition convertible (l : list string) : Prop :=
  Forall (fun ip => exists n, ip_to_int ip = Ret n) l.

Definition value (ip : string) : Z :=
  match ip_to_int ip with
  | Ret n => n
  | Raise _ => 0
  end.

Definition items (l : list string) : list (string * Z) :=
  map (fun ip => (ip, value ip)) l.

(** C3 as the specification has it: the second of two equal neighbours
    closes the segment before it and is written as an entry of its own,
    so the output is the output for the addresses up to the first copy,
    then the duplicate, then the output for the addresses after it. *)
Definition duplicate_single_entry : Prop :=
  forall pre a b post,
    valid_list (pre ++ a :: b :: post) ->
    sorted (map value (pre ++ a :: b :: post)) ->
    value b - value a = 0 ->
    exists o1 o2,
      process_ips (pre ++ [a]) = Ret o1 /\
      process_ips post = Ret o2 /\
      process_ips (pre ++ a :: b :: post) = Ret (o1 ++ [b] ++ o2).


(** What the reader is specified to keep: the stripped, non-blank lines
    that split into four octets, in the order of the file. *)
Definition accepted (ip : string) : bool :=
  match valid_ip ip with
  | Ret b => b
  | Raise _ => false
  end.

Definition non_blank (ip : string) : bool := negb (String.eqb ip "").

Definition kept (lines : list string) : list string :=
  filter accepted (filter non_blank (map strip lines)).

Definition warned (lines : list string) : list event :=
  map Warn_invalid_ip
    (filter (fun ip => negb (accepted ip)) (filter non_blank (map strip lines))).

(** No line of the file makes the validity test raise. *)
Definition test_returns (lines : list string) : Prop :=
  Forall (fun line => exists b, valid_ip (strip line) = Ret b) lines.

Definition is_ascii (c : ascii) : bool := code c <? 128.

Definition newline : string := String "010" EmptyString.

(** A line whose first character is SUPERSCRIPT TWO (U+00B2), followed
    by [0.1.1.1]. *)
Definition superscript_line : string := String "178" "0.1.1.1".

(** ** Writing the result and the entry point *)

(** Where [write_output] sends the addresses. *)
Inductive destination : Type :=
| Stdout
| File (path : string).

(** What a run leaves behind: the destination, the text of each
    [f.write] or [print] of an address in order, and the number in the
    closing message.  The fixed texts of the other messages are not
    modelled. *)
Record report : Type := mk_report {
  dest : destination;
  lines : list string;
  total : Z
}.

(** [ip + '\n'], which is also what [print(ip)] writes. *)
Definition line_of (ip : string) : string := (ip ++ newline)%string.

(** [write_output].  [output_file] is [None] without [-o]; an empty
    path is false for [if output_file:] and goes to the console like
    [None].  [can_write path] tells whether opening and writing the file
    succeeds; when it does not, [except Exception] reports the error and
    calls [sys.exit(1)]. *)
Definition write_output (can_write : string -> bool) (result : list string)
  (output_file : option string) : exc report :=
  let written := map line_of result in
  let count := Z.of_nat (List.length result) in
  match output_file with
  | Some (String c path) =>
      if can_write (String c path)
      then Ret (mk_report (File (String c path)) written count)
      else Raise (SystemExit 1)
  | _ => Ret (mk_report Stdout written count)
  end.

(** [main] after the arguments are parsed: [file] is the content of the
    file named by [-l] and [output_file] the value of [-o]. *)
Definition main (can_write : string -> bool) (file : text_file)
  (output_file : option string) : exc report :=
  r <- read_ip_file file ;;
  match fst r with
  | [] => Raise (SystemExit 1)
  | ip_list =>
      sorted_ips <- sort_ips ip_list ;;
      result <- process_ips sorted_ips ;;
      write_output can_write result output_file
  end.

(** A computation that can only fail with [ValueError]. *)
Definition raises_only_value_error {A : Type} (m : exc A) : Prop :=
  forall e, m = Raise e -> e = ValueError.

(** Two neighbours of the list [l]. *)
Definition adjacent {A : Type} (l : list A) (x y : A) : Prop :=
  exists pre post, l = pre ++ x :: y :: post.

(** The string [t] of the list [out] has the value [x]. *)
Definition has_value (out : list string) (x : Z) : Prop :=
  exists t, In t out /\ ip_to_int t = Ret x.

(** The value [x] lies in a gap the filler closes: between two
    neighbours of [inp] of which the second extends the first. *)
Definition gap_value (inp : list (string * Z)) (x : Z) : Prop :=
  exists a ia b ib,
    adjacent inp (a, ia) (b, ib) /\ extends a ia b ib = true /\ ia <= x <= ib.

(** A character [str.strip] leaves in place. *)
Definition printable (c : ascii) : bool := negb (is_space c).

(** ** The range filler on values *)

(** The test of the loop on the values [p] and [c] of two canonical
    addresses: same /24 and a step of 1 to 6. *)
Definition extends_value (p c : Z) : bool :=
  (p / 256 =? c / 256) && ((0 <? c - p) && (c - p <=? 6)).

(** [fill] on values: the values written for a segment opened at [s]
    whose last address read is [p], followed by [rest]. *)
Fixpoint fill_values (s p : Z) (rest : list Z) : list Z :=
  match rest with
  | [] => py_range s (p + 1)
  | c :: rest' =>
      if extends_value p c then fill_values s c rest'
      else py_range s (p + 1) ++ fill_values c c rest'
  end.

Definition fill_all (ns : list Z) : list Z :=
  match ns with
  | [] => []
  | first :: rest => fill_values first first rest
  end.

Definition in_range (n : Z) : Prop := 0 <= n < 2 ^ 32.

(** A string no longer than the bound [int] puts on its digits. *)
Definition short (s : string) : Prop :=
  Z.of_nat (String.length s) <= int_max_str_digits.

(** A line of ASCII characters, at most 4300 of them. *)
Definition plain (line : string) : Prop :=
  all_chars is_ascii line = true /\ short line.

(** * Properties *)

(** ** The exception monad *)

Lemma bind_Ret_inv {A B : Type} (m : exc A) (k : A -> exc B) (b : B) :
  bind m k = Ret b -> exists a, m = Ret a /\ k a = Ret b.
Proof.
  destruct m as [a|e]; simpl; intros H; [exists a; auto | discriminate].
Qed.

Ltac inv_bind H :=
  let a := fresh "v" in
  let Ha := fresh "Hv" in
  apply bind_Ret_inv in H; destruct H as [a [Ha H]].

(** ** Octets: facts checked on each of the 256 values *)

Lemma byte_forall (P : Z -> bool) :
  forallb P (py_range 0 256) = true ->
  forall b, 0 <= b <= 255 -> P b = true.
Proof.
  intros H b Hb. rewrite forallb_forall in H. apply H.
  unfold py_range. apply in_map_iff. exists (Z.to_nat b).
  split; [lia|]. apply in_seq. lia.
Qed.

Lemma py_int_py_str_byte b : 0 <= b <= 255 -> py_int (py_str b) = Ret b.
Proof.
  intros Hb.
  pose (P := fun b => match py_int (py_str b) with
                      | Ret v => v =? b
                      | Raise _ => false
                      end).
  assert (HP : P b = true) by (apply byte_forall; [vm_compute; reflexivity | exact Hb]).
  unfold P in HP. destruct (py_int (py_str b)) as [v|e]; [|discriminate].
  apply Z.eqb_eq in HP. now subst.
Qed.

Lemma py_str_byte_not_dot b : 0 <= b <= 255 -> all_chars not_dot (py_str b) = true.
Proof.
  intros Hb.
  apply (byte_forall (fun b => all_chars not_dot (py_str b)));
    [vm_compute; reflexivity | exact Hb].
Qed.

Lemma py_str_byte_isdigit b : 0 <= b <= 255 -> isdigit (py_str b) = true.
Proof.
  intros Hb.
  apply (byte_forall (fun b => isdigit (py_str b)));
    [vm_compute; reflexivity | exact Hb].
Qed.

(** ** [split] and [join] *)

Lemma split_not_nil sep s : split sep s <> [].
Proof.
  destruct s as [|c r]; simpl; [discriminate|].
  destruct (Ascii.eqb c sep); [discriminate|].
  destruct (split sep r); discriminate.
Qed.

Lemma split_no_sep s : all_chars not_dot s = true -> split "." s = [s].
Proof.
  induction s as [|c r IH]; simpl; intros H; [reflexivity|].
  apply andb_true_iff in H. destruct H as [Hc Hr].
  unfold not_dot in Hc. apply negb_true_iff in Hc. rewrite Hc.
  now rewrite (IH Hr).
Qed.

Lemma split_app_sep s r :
  all_chars not_dot s = true ->
  split "." (s ++ String "." r)%string = s :: split "." r.
Proof.
  induction s as [|c s IH]; simpl; intros H; [reflexivity|].
  apply andb_true_iff in H. destruct H as [Hc Hs].
  unfold not_dot in Hc. apply negb_true_iff in Hc. rewrite Hc.
  now rewrite (IH Hs).
Qed.

Lemma join_split s : join "." (split "." s) = s.
Proof.
  induction s as [|c r IH]; simpl; [reflexivity|].
  destruct (split "." r) as [|p ps] eqn:E; [now apply split_not_nil in E|].
  destruct (Ascii.eqb_spec c ".") as [->|Hc].
  - change (join "." ("" :: p :: ps)) with (String "." (join "." (p :: ps))).
    now rewrite IH.
  - rewrite <- IH. destruct ps; reflexivity.
Qed.

(** ** Bytes of a 32-bit value *)

Lemma land_255 a : Z.land a 255 = a mod 256.
Proof. change 255 with (Z.ones 8). now rewrite Z.land_ones by lia. Qed.

Lemma land_255_range a : 0 <= Z.land a 255 <= 255.
Proof. rewrite land_255. pose proof (Z.mod_pos_bound a 256). lia. Qed.

Lemma pack_unpack x :
  Z.shiftl (Z.land (Z.shiftr x 24) 255) 24 + Z.shiftl (Z.land (Z.shiftr x 16) 255) 16
  + Z.shiftl (Z.land (Z.shiftr x 8) 255) 8 + Z.land x 255 = x mod 2 ^ 32.
Proof.
  rewrite !land_255, !Z.shiftr_div_pow2, !Z.shiftl_mul_pow2 by lia.
  change (2 ^ 24) with 16777216. change (2 ^ 16) with 65536.
  change (2 ^ 8) with 256. change (2 ^ 32) with 4294967296.
  Z.div_mod_to_equations. lia.
Qed.

Lemma unpack_pack a b c d :
  0 <= a <= 255 -> 0 <= b <= 255 -> 0 <= c <= 255 -> 0 <= d <= 255 ->
  let n := Z.shiftl a 24 + Z.shiftl b 16 + Z.shiftl c 8 + d in
  0 <= n < 2 ^ 32 /\
  Z.land (Z.shiftr n 24) 255 = a /\ Z.land (Z.shiftr n 16) 255 = b /\
  Z.land (Z.shiftr n 8) 255 = c /\ Z.land n 255 = d.
Proof.
  intros Ha Hb Hc Hd n. subst n.
  rewrite !land_255, !Z.shiftr_div_pow2, !Z.shiftl_mul_pow2 by lia.
  change (2 ^ 24) with 16777216. change (2 ^ 16) with 65536.
  change (2 ^ 8) with 256. change (2 ^ 32) with 4294967296.
  repeat split; try lia; Z.div_mod_to_equations; lia.
Qed.

(** ** [int_to_ip] followed by [ip_to_int] *)

Lemma split_int_to_ip x :
  split "." (int_to_ip x) =
  [py_str (Z.land (Z.shiftr x 24) 255); py_str (Z.land (Z.shiftr x 16) 255);
   py_str (Z.land (Z.shiftr x 8) 255); py_str (Z.land x 255)].
Proof.
  unfold int_to_ip.
  change (append ".") with (String ".").
  rewrite !split_app_sep by (apply py_str_byte_not_dot, land_255_range).
  now rewrite split_no_sep by (apply py_str_byte_not_dot, land_255_range).
Qed.

Lemma ip_to_int_parts ip p0 p1 p2 p3 :
  split "." ip = [p0; p1; p2; p3] ->
  ip_to_int ip =
  (a <- py_int p0 ;; b <- py_int p1 ;; c <- py_int p2 ;; d <- py_int p3 ;;
   Ret (Z.shiftl a 24 + Z.shiftl b 16 + Z.shiftl c 8 + d)).
Proof. intros H. unfold ip_to_int. rewrite H. reflexivity. Qed.

Lemma bind_Ret {A B : Type} (a : A) (k : A -> exc B) : bind (Ret a) k = k a.
Proof. reflexivity. Qed.

Lemma ip_to_int_int_to_ip x : ip_to_int (int_to_ip x) = Ret (x mod 2 ^ 32).
Proof.
  rewrite (ip_to_int_parts _ _ _ _ _ (split_int_to_ip x)).
  rewrite !py_int_py_str_byte by apply land_255_range.
  rewrite !bind_Ret. now rewrite pack_unpack.
Qed.

Lemma int_to_ip_then_ip_to_int x :
  0 <= x < 2 ^ 32 -> ip_to_int (int_to_ip x) = Ret x.
Proof.
  intros Hx. rewrite ip_to_int_int_to_ip. now rewrite Z.mod_small by lia.
Qed.

(** C5. For every integer [x] in [0, 2^32 - 1], converting [x] to a
    dotted quad with [int_to_ip] and back with [ip_to_int] returns [x]. *)
Theorem ip_to_int_of_int_to_ip :
  forall x, 0 <= x <= 2 ^ 32 - 1 -> ip_to_int (int_to_ip x) = Ret x.
Proof.
  intros x Hx. rewrite ip_to_int_int_to_ip.
  now rewrite Z.mod_small by lia.
Qed.

Lemma ip_to_int_of_int_to_ip_witness :
  0 <= 3232235777 <= 2 ^ 32 - 1 /\
  ip_to_int (int_to_ip 3232235777) = Ret 3232235777.
Proof.
  split; [lia | apply (ip_to_int_of_int_to_ip 3232235777); lia].
Defined.

(** ** Addresses the reader accepts *)

Lemma octet_ok_inv p :
  octet_ok p = Ret true ->
  isdigit p = true /\ exists v, py_int p = Ret v /\ 0 <= v <= 255.
Proof.
  unfold octet_ok. destruct (isdigit p); [|discriminate].
  intros H. inv_bind H. injection H as H.
  split; [reflexivity|]. exists v. split; [assumption|lia].
Qed.

Lemma allM_true_Forall {A : Type} (f : A -> exc bool) l :
  allM f l = Ret true -> Forall (fun x => f x = Ret true) l.
Proof.
  induction l as [|x xs IH]; simpl; intros H; [constructor|].
  inv_bind H. destruct v; [|discriminate]. constructor; auto.
Qed.

Lemma valid_ip_inv ip :
  valid_ip ip = Ret true ->
  exists p0 p1 p2 p3,
    split "." ip = [p0; p1; p2; p3] /\
    octet_ok p0 = Ret true /\ octet_ok p1 = Ret true /\
    octet_ok p2 = Ret true /\ octet_ok p3 = Ret true.
Proof.
  unfold valid_ip.
  destruct (split "." ip) as [|p0 [|p1 [|p2 [|p3 [|p4 l]]]]]; try discriminate.
  cbn [List.length Nat.eqb]. intros H. apply allM_true_Forall in H.
  exists p0, p1, p2, p3.
  repeat match goal with
         | H : Forall _ (_ :: _) |- _ => inversion H; subst; clear H
         end.
  auto.
Qed.

Lemma valid_ip_to_int ip :
  valid_ip ip = Ret true -> exists n, ip_to_int ip = Ret n /\ 0 <= n < 2 ^ 32.
Proof.
  intros H. destruct (valid_ip_inv _ H) as (p0 & p1 & p2 & p3 & Hs & H0 & H1 & H2 & H3).
  apply octet_ok_inv in H0, H1, H2, H3.
  destruct H0 as (_ & a & Ha & Ra), H1 as (_ & b & Hb & Rb),
           H2 as (_ & c & Hc & Rc), H3 as (_ & d & Hd & Rd).
  exists (Z.shiftl a 24 + Z.shiftl b 16 + Z.shiftl c 8 + d).
  rewrite (ip_to_int_parts _ _ _ _ _ Hs), Ha, Hb, Hc, Hd. rewrite !bind_Ret.
  split; [reflexivity|]. now apply unpack_pack.
Qed.

Lemma mapM_Forall2 {A B : Type} (f : A -> exc B) l ys :
  mapM f l = Ret ys <-> Forall2 (fun x y => f x = Ret y) l ys.
Proof.
  revert ys. induction l as [|x xs IH]; intros ys; simpl.
  - split; intros H; [injection H as <-; constructor | inversion H; reflexivity].
  - split; intros H.
    + inv_bind H. inv_bind H. injection H as <-. constructor; [assumption|].
      now apply IH.
    + inversion H as [|? y ? ys' Hx Hxs]; subst. rewrite Hx, bind_Ret.
      apply IH in Hxs. now rewrite Hxs, bind_Ret.
Qed.

Lemma valid_list_ints l :
  Forall (fun ip => valid_ip ip = Ret true) l ->
  exists ns, ints_of l ns /\ Forall (fun n => 0 <= n < 2 ^ 32) ns.
Proof.
  induction 1 as [|ip l Hip _ (ns & Hns & Hr)].
  - exists []. split; constructor.
  - destruct (valid_ip_to_int _ Hip) as (n & Hn & Rn).
    exists (n :: ns). split; constructor; assumption.
Qed.

(** ** Sorting *)

Lemma insert_sorted_In x y l : In y (insert_sorted x l) <-> y = x \/ In y l.
Proof.
  induction l as [|z zs IH]; simpl; [intuition|].
  destruct (x <=? z); simpl; rewrite ?IH; intuition.
Qed.

Lemma insert_sorted_perm x l : Permutation (x :: l) (insert_sorted x l).
Proof.
  induction l as [|z zs IH]; simpl; [reflexivity|].
  destruct (x <=? z); [reflexivity|].
  rewrite perm_swap. now constructor.
Qed.

Lemma list_sort_perm l : Permutation l (list_sort l).
Proof.
  induction l as [|x xs IH]; simpl; [constructor|].
  rewrite <- insert_sorted_perm. now constructor.
Qed.

Lemma insert_sorted_sorted x l : sorted l -> sorted (insert_sorted x l).
Proof.
  unfold sorted. induction l as [|z zs IH]; simpl; intros H.
  - repeat constructor.
  - destruct (Z.leb_spec x z) as [Hxz|Hxz].
    + constructor; [assumption|constructor; assumption].
    + inversion H as [|? ? Hs Hh]; subst. constructor; [auto|].
      destruct zs as [|w ws]; simpl.
      * constructor. lia.
      * inversion Hh; subst. destruct (x <=? w); constructor; lia.
Qed.

Lemma list_sort_sorted l : sorted (list_sort l).
Proof.
  induction l as [|x xs IH]; simpl; [constructor|].
  now apply insert_sorted_sorted.
Qed.

Lemma list_sort_id l : sorted l -> list_sort l = l.
Proof.
  unfold sorted. induction l as [|x xs IH]; simpl; intros H; [reflexivity|].
  inversion H as [|? ? Hs Hh]; subst. rewrite (IH Hs).
  destruct xs as [|y ys]; [reflexivity|]. simpl.
  inversion Hh; subst. destruct (Z.leb_spec x y); [reflexivity|lia].
Qed.

Lemma list_sort_Forall (P : Z -> Prop) l : Forall P l -> Forall P (list_sort l).
Proof.
  intros H. apply Forall_forall. intros x Hx.
  rewrite Forall_forall in H. apply H.
  apply Permutation_in with (list_sort l); [|assumption].
  symmetry. apply list_sort_perm.
Qed.

(** ** The sorter *)

Lemma sort_ips_ints l ns :
  ints_of l ns -> sort_ips l = Ret (map int_to_ip (list_sort ns)).
Proof.
  intros H. apply mapM_Forall2 in H. unfold sort_ips. now rewrite H.
Qed.

Lemma ints_of_map_int_to_ip ns :
  Forall (fun n => 0 <= n < 2 ^ 32) ns -> ints_of (map int_to_ip ns) ns.
Proof.
  induction 1 as [|n ns Hn _ IH]; simpl; constructor; [|assumption].
  apply int_to_ip_then_ip_to_int. assumption.
Qed.

(** ** Decimal literals: [int] against [str] *)

Lemma digit_value_cases c k :
  digit_value c = Some k ->
  (c = "0" /\ k = 0 \/ c = "1" /\ k = 1 \/ c = "2" /\ k = 2 \/
   c = "3" /\ k = 3 \/ c = "4" /\ k = 4 \/ c = "5" /\ k = 5 \/
   c = "6" /\ k = 6 \/ c = "7" /\ k = 7 \/ c = "8" /\ k = 8 \/
   c = "9" /\ k = 9)%char.
Proof.
  destruct c as [[|] [|] [|] [|] [|] [|] [|] [|]]; vm_compute;
    intros H; try discriminate; injection H as <-; tauto.
Qed.

Ltac digit_cases H :=
  apply digit_value_cases in H;
  destruct H as [[-> ->]|[[-> ->]|[[-> ->]|[[-> ->]|[[-> ->]|
                [[-> ->]|[[-> ->]|[[-> ->]|[[-> ->]|[-> ->]]]]]]]]]].

Lemma is_digit_char_not_space c : is_digit_char c = true -> is_int_space c = false.
Proof.
  destruct c as [[|] [|] [|] [|] [|] [|] [|] [|]]; vm_compute;
    intros H; try discriminate; reflexivity.
Qed.

Lemma is_digit_char_not_special c :
  is_digit_char c = true ->
  Ascii.eqb c "_" = false /\ c <> "-"%char /\ c <> "+"%char.
Proof.
  destruct c as [[|] [|] [|] [|] [|] [|] [|] [|]]; vm_compute;
    intros H; try discriminate; repeat split; discriminate.
Qed.

Lemma lstrip_digits s :
  all_chars is_digit_char s = true -> lstrip_by is_int_space s = s.
Proof.
  destruct s as [|c r]; simpl; [reflexivity|]. intros H.
  apply andb_true_iff in H. destruct H as [Hc _].
  now rewrite (is_digit_char_not_space _ Hc).
Qed.

Lemma rstrip_digits s :
  all_chars is_digit_char s = true -> rstrip_by is_int_space s = s.
Proof.
  induction s as [|c r IH]; simpl; [reflexivity|]. intros H.
  apply andb_true_iff in H. destruct H as [Hc Hr].
  rewrite (IH Hr), (is_digit_char_not_space _ Hc). now destruct r.
Qed.

(** On an all-digit string [int] reads the digits and nothing else. *)
Lemma py_int_isdigit s :
  isdigit s = true ->
  py_int s = match int_digits 0 s with
             | Some n =>
                 if int_max_str_digits <? count_digits s then Raise ValueError
                 else Ret n
             | None => Raise ValueError
             end.
Proof.
  destruct s as [|c r]; [discriminate|]. unfold isdigit. intros H.
  unfold py_int. rewrite (lstrip_digits _ H), (rstrip_digits _ H).
  simpl in H. apply andb_true_iff in H. destruct H as [Hc _].
  destruct (is_digit_char_not_special _ Hc) as (Hu & Hm & Hp).
  assert (E : match String c r with
              | String "-" r0 => (true, r0)
              | String "+" r0 => (false, r0)
              | _ => (false, String c r)
              end = (false, String c r)).
  { destruct c as [[|] [|] [|] [|] [|] [|] [|] [|]]; try reflexivity;
      congruence. }
  rewrite E. cbn [int_unsigned int_digits]. rewrite Hu.
  destruct (digit_value c) as [k|]; [|reflexivity].
  replace (10 * 0 + k) with k by lia.
  destruct (int_digits k r); [|reflexivity].
  now destruct (int_max_str_digits <? count_digits (String c r)).
Qed.

Lemma int_digits_pos s d :
  NilEmpty.uint_of_string s = Some d ->
  forall acc : positive,
    int_digits (Z.pos acc) s = Some (Z.pos (Pos.of_uint_acc d acc)).
Proof.
  revert d. induction s as [|c r IH]; intros d H acc.
  - injection H as <-. reflexivity.
  - cbn [NilEmpty.uint_of_string] in H.
    destruct (NilEmpty.uint_of_string r) as [d'|] eqn:E; [|discriminate].
    apply uint_of_char_spec in H.
    destruct H as [[-> ->]|[[-> ->]|[[-> ->]|[[-> ->]|[[-> ->]|
                  [[-> ->]|[[-> ->]|[[-> ->]|[[-> ->]|[-> ->]]]]]]]]]];
      cbn [int_digits Pos.of_uint_acc];
      change (Ascii.eqb _ "_") with false; cbv iota;
      match goal with
      | |- context [digit_value ?c] =>
          let v := eval vm_compute in (digit_value c) in
          change (digit_value c) with v
      end; cbv iota; rewrite <- (IH _ eq_refl); f_equal; lia.
Qed.

Lemma int_digits_zero s d :
  NilEmpty.uint_of_string s = Some d ->
  int_digits 0 s = Some (Z.of_N (Pos.of_uint d)).
Proof.
  revert d. induction s as [|c r IH]; intros d H.
  - injection H as <-. reflexivity.
  - cbn [NilEmpty.uint_of_string] in H.
    destruct (NilEmpty.uint_of_string r) as [d'|] eqn:E; [|discriminate].
    apply uint_of_char_spec in H.
    destruct H as [[-> ->]|[[-> ->]|[[-> ->]|[[-> ->]|[[-> ->]|
                  [[-> ->]|[[-> ->]|[[-> ->]|[[-> ->]|[-> ->]]]]]]]]]];
      cbn [int_digits Pos.of_uint];
      change (Ascii.eqb _ "_") with false; cbv iota;
      match goal with
      | |- context [digit_value ?c] =>
          let v := eval vm_compute in (digit_value c) in
          change (digit_value c) with v
      end; cbv iota;
      [ exact (IH _ eq_refl)
      | exact (int_digits_pos _ _ E _) .. ].
Qed.

(** A string on which [int_digits] succeeds and [isdigit] holds is a
    sequence of decimal digits. *)
Lemma int_digits_uint s :
  all_chars is_digit_char s = true ->
  forall acc v, int_digits acc s = Some v ->
  exists d, NilEmpty.uint_of_string s = Some d.
Proof.
  induction s as [|c r IH]; intros H acc v Hv.
  - exists Decimal.Nil. reflexivity.
  - simpl in H. apply andb_true_iff in H. destruct H as [Hc Hr].
    destruct (is_digit_char_not_special _ Hc) as (Hu & _).
    cbn [int_digits] in Hv. rewrite Hu in Hv.
    destruct (digit_value c) as [k|] eqn:Ek; [|discriminate].
    destruct (IH Hr _ _ Hv) as [d Hd].
    cbn [NilEmpty.uint_of_string]. rewrite Hd.
    digit_cases Ek; eexists; reflexivity.
Qed.

Lemma py_str_of_uint d :
  d <> Decimal.Nil -> Decimal.unorm d = d ->
  py_str (Z.of_N (Pos.of_uint d)) = NilEmpty.string_of_uint d.
Proof.
  intros Hn Hu. unfold py_str.
  change (Z.of_N (Pos.of_uint d)) with (Z.of_int (Decimal.Pos d)).
  rewrite DecimalZ.to_of. cbn [Decimal.norm NilZero.string_of_int].
  rewrite Hu. unfold NilZero.string_of_uint. destruct d; congruence.
Qed.

Lemma py_str_py_int_digits p v :
  isdigit p = true -> no_leading_zero p = true ->
  py_int p = Ret v -> py_str v = p.
Proof.
  intros Hd Hz Hv. rewrite (py_int_isdigit _ Hd) in Hv.
  destruct (int_digits 0 p) as [n|] eqn:En; [|discriminate].
  destruct (int_max_str_digits <? count_digits p); [discriminate|].
  injection Hv as ->.
  assert (Ha : all_chars is_digit_char p = true) by (destruct p; [discriminate|exact Hd]).
  destruct (int_digits_uint _ Ha _ _ En) as [d Ed].
  rewrite (int_digits_zero _ _ Ed) in En. injection En as <-.
  rewrite <- (NilEmpty.sus _ _ Ed) in Hz |- *.
  assert (Hn : d <> Decimal.Nil).
  { intros ->. rewrite <- (NilEmpty.sus _ _ Ed) in Hd. discriminate. }
  apply py_str_of_uint; [assumption|].
  destruct d as [|d|d|d|d|d|d|d|d|d|d]; try reflexivity; try congruence.
  destruct d; try discriminate Hz. reflexivity.
Qed.

Lemma py_str_byte_no_leading_zero b :
  0 <= b <= 255 -> no_leading_zero (py_str b) = true.
Proof.
  intros Hb.
  apply (byte_forall (fun b => no_leading_zero (py_str b)));
    [vm_compute; reflexivity | exact Hb].
Qed.

Lemma int_to_ip_canonical x : canonical (int_to_ip x) = true.
Proof.
  unfold canonical. rewrite split_int_to_ip. cbn [forallb].
  rewrite !py_str_byte_no_leading_zero by apply land_255_range. reflexivity.
Qed.

(** ** [ip_to_int] followed by [int_to_ip] *)

(** C6, counterexample.  ["001.002.003.004"] is accepted by the reader,
    and the two conversions turn it into ["1.2.3.4"]: the round trip is
    not the identity on every valid dotted quad. *)
Lemma roundtrip_on_valid_fails : ~ roundtrip_on_valid.
Proof.
  intros H. destruct (H "001.002.003.004") as (n & Hn & Hs).
  - vm_compute. reflexivity.
  - vm_compute in Hn. injection Hn as <-. vm_compute in Hs. discriminate.
Qed.

(** C6, amended.  For every dotted quad [s] the reader accepts and whose
    octets are written with the ASCII digits [0] to [9] and without
    leading zeros, [ip_to_int s] returns an integer [n] and [int_to_ip n]
    is [s] again.  Among 8-bit characters a valid address has no other
    digits; the hypothesis on the characters keeps the statement true of
    text with the decimal digits of other scripts, which the reader
    accepts and [int_to_ip] never writes. *)
Theorem int_to_ip_of_ip_to_int :
  forall s,
    valid_ip s = Ret true -> all_chars is_ascii s = true ->
    canonical s = true ->
    exists n, ip_to_int s = Ret n /\ int_to_ip n = s.
Proof.
  intros s Hv _ Hc.
  destruct (valid_ip_inv _ Hv) as (p0 & p1 & p2 & p3 & Hs & H0 & H1 & H2 & H3).
  apply octet_ok_inv in H0, H1, H2, H3.
  destruct H0 as (D0 & a & Ha & Ra), H1 as (D1 & b & Hb & Rb),
           H2 as (D2 & c & Hc' & Rc), H3 as (D3 & d & Hd & Rd).
  unfold canonical in Hc. rewrite Hs in Hc. cbn [forallb] in Hc.
  repeat (apply andb_true_iff in Hc; destruct Hc as [? Hc]).
  exists (Z.shiftl a 24 + Z.shiftl b 16 + Z.shiftl c 8 + d). split.
  - rewrite (ip_to_int_parts _ _ _ _ _ Hs), Ha, Hb, Hc', Hd.
    now rewrite !bind_Ret.
  - destruct (unpack_pack a b c d Ra Rb Rc Rd) as (_ & Ea & Eb & Ec & Ed).
    unfold int_to_ip. rewrite Ea, Eb, Ec, Ed.
    rewrite (py_str_py_int_digits p0 a), (py_str_py_int_digits p1 b),
      (py_str_py_int_digits p2 c), (py_str_py_int_digits p3 d) by assumption.
    rewrite <- (join_split s). rewrite Hs. reflexivity.
Qed.

Lemma int_to_ip_of_ip_to_int_witness :
  exists n, ip_to_int "192.168.1.7" = Ret n /\ int_to_ip n = "192.168.1.7".
Proof.
  apply (int_to_ip_of_ip_to_int "192.168.1.7"); vm_compute; reflexivity.
Defined.

(** ** What [ip_to_int] returns *)

Lemma add_lor_low hi lo k :
  0 <= k -> 0 <= lo < 2 ^ k -> hi * 2 ^ k + lo = Z.lor (hi * 2 ^ k) lo.
Proof.
  intros Hk Hlo.
  assert (H : Z.land (hi * 2 ^ k) lo = 0); [|now rewrite Z.add_nocarry_lxor, Z.lxor_lor].
  apply Z.bits_inj'. intros n Hn.
  rewrite Z.land_spec, Z.bits_0, <- Z.shiftl_mul_pow2 by assumption.
  destruct (Z.ltb_spec n k) as [Hlt|Hge].
  - now rewrite Z.shiftl_spec_low.
  - rewrite <- (Z.mod_small lo (2 ^ k)) by assumption.
    rewrite Z.mod_pow2_bits_high by lia. apply andb_false_r.
Qed.

Lemma sum_is_lor a b c d :
  0 <= a <= 255 -> 0 <= b <= 255 -> 0 <= c <= 255 -> 0 <= d <= 255 ->
  Z.shiftl a 24 + Z.shiftl b 16 + Z.shiftl c 8 + d =
  Z.lor (Z.lor (Z.lor (Z.shiftl a 24) (Z.shiftl b 16)) (Z.shiftl c 8)) d.
Proof.
  intros Ha Hb Hc Hd. rewrite !Z.shiftl_mul_pow2 by lia.
  rewrite <- (add_lor_low a (b * 2 ^ 16) 24) by lia.
  replace (a * 2 ^ 24 + b * 2 ^ 16) with ((a * 2 ^ 8 + b) * 2 ^ 16) by lia.
  rewrite <- (add_lor_low _ (c * 2 ^ 8) 16) by lia.
  replace ((a * 2 ^ 8 + b) * 2 ^ 16 + c * 2 ^ 8)
    with ((a * 2 ^ 16 + b * 2 ^ 8 + c) * 2 ^ 8) by lia.
  rewrite <- (add_lor_low _ d 8) by lia. reflexivity.
Qed.

(** C9, counterexample.  On ["0.1.256.0"] the parts are numeric and
    [ip_to_int] returns [131072], the sum of the shifted parts; the
    bitwise or of the shifted parts is [65536]. *)
Lemma four_parts_or_fails : ~ four_parts_or.
Proof.
  intros H.
  specialize (H "0.1.256.0" "0" "1" "256" "0" 0 1 256 0
                eq_refl eq_refl eq_refl eq_refl eq_refl).
  vm_compute in H. discriminate.
Qed.

(** C9, amended.  [ip_to_int s] raises [ValueError] whenever splitting
    [s] on ['.'] does not give exactly 4 parts.  When it gives 4 parts
    that [int] reads as [a], [b], [c], [d], the result is the sum
    [(a << 24) + (b << 16) + (c << 8) + d], whatever the range of the
    parts; when each part lies in [0, 255] this sum is the 32-bit value
    [a << 24 | b << 16 | c << 8 | d]. *)
Theorem ip_to_int_spec :
  (forall s, List.length (split "." s) <> 4%nat -> ip_to_int s = Raise ValueError) /\
  (forall s p0 p1 p2 p3 a b c d,
     split "." s = [p0; p1; p2; p3] ->
     py_int p0 = Ret a -> py_int p1 = Ret b ->
     py_int p2 = Ret c -> py_int p3 = Ret d ->
     ip_to_int s = Ret (Z.shiftl a 24 + Z.shiftl b 16 + Z.shiftl c 8 + d) /\
     (0 <= a <= 255 -> 0 <= b <= 255 -> 0 <= c <= 255 -> 0 <= d <= 255 ->
      Z.shiftl a 24 + Z.shiftl b 16 + Z.shiftl c 8 + d =
      Z.lor (Z.lor (Z.lor (Z.shiftl a 24) (Z.shiftl b 16)) (Z.shiftl c 8)) d /\
      0 <= Z.shiftl a 24 + Z.shiftl b 16 + Z.shiftl c 8 + d < 2 ^ 32)).
Proof.
  split.
  - intros s Hlen. unfold ip_to_int.
    apply Nat.eqb_neq in Hlen. now rewrite Hlen.
  - intros s p0 p1 p2 p3 a b c d Hs Ha Hb Hc Hd. split.
    + rewrite (ip_to_int_parts _ _ _ _ _ Hs), Ha, Hb, Hc, Hd.
      now rewrite !bind_Ret.
    + intros Ra Rb Rc Rd. split; [now apply sum_is_lor|].
      now apply (unpack_pack a b c d).
Qed.

Lemma ip_to_int_spec_witness :
  ip_to_int "1.2.3" = Raise ValueError /\
  ip_to_int "0.1.256.0" = Ret (Z.shiftl 0 24 + Z.shiftl 1 16 + Z.shiftl 256 8 + 0) /\
  Z.shiftl 192 24 + Z.shiftl 168 16 + Z.shiftl 1 8 + 7 =
  Z.lor (Z.lor (Z.lor (Z.shiftl 192 24) (Z.shiftl 168 16)) (Z.shiftl 1 8)) 7.
Proof.
  split; [|split].
  - apply (proj1 ip_to_int_spec "1.2.3"). vm_compute. discriminate.
  - apply (proj2 ip_to_int_spec "0.1.256.0" "0" "1" "256" "0" 0 1 256 0);
      reflexivity.
  - apply (proj2 ip_to_int_spec "192.168.1.7" "192" "168" "1" "7" 192 168 1 7);
      try reflexivity; lia.
Defined.

(** ** The sorter on valid addresses *)

Lemma sort_ips_valid l :
  valid_list l ->
  exists ns, ints_of l ns /\
    sort_ips l = Ret (map int_to_ip (list_sort ns)) /\
    ints_of (map int_to_ip (list_sort ns)) (list_sort ns).
Proof.
  intros Hl. destruct (valid_list_ints _ Hl) as (ns & Hns & Hr).
  exists ns. split; [assumption|]. split; [now apply sort_ips_ints|].
  apply ints_of_map_int_to_ip. now apply list_sort_Forall.
Qed.

(** C8. For every list [l] of valid address strings, [sort_ips l]
    returns a list [out], in ascending order of integer value, and
    sorting [out] again returns [out]: [sort_ips (sort_ips l)] is
    [sort_ips l]. *)
Theorem sort_ips_idempotent :
  forall l, valid_list l ->
  exists out,
    sort_ips l = Ret out /\
    sort_ips out = Ret out /\
    (out' <- sort_ips l ;; sort_ips out') = sort_ips l /\
    exists ms, ints_of out ms /\ sorted ms.
Proof.
  intros l Hl. destruct (sort_ips_valid _ Hl) as (ns & Hns & Hs & Hout).
  exists (map int_to_ip (list_sort ns)).
  assert (H2 : sort_ips (map int_to_ip (list_sort ns)) =
               Ret (map int_to_ip (list_sort ns))).
  { rewrite (sort_ips_ints _ _ Hout).
    now rewrite (list_sort_id _ (list_sort_sorted ns)). }
  repeat split; try assumption.
  - rewrite Hs, bind_Ret. assumption.
  - exists (list_sort ns). split; [assumption | apply list_sort_sorted].
Qed.

Lemma sort_ips_idempotent_witness :
  exists out,
    sort_ips ["10.0.0.9"; "010.0.0.1"; "9.255.0.3"] = Ret out /\
    sort_ips out = Ret out /\
    (out' <- sort_ips ["10.0.0.9"; "010.0.0.1"; "9.255.0.3"] ;; sort_ips out')
    = sort_ips ["10.0.0.9"; "010.0.0.1"; "9.255.0.3"] /\
    exists ms, ints_of out ms /\ sorted ms.
Proof.
  apply (sort_ips_idempotent ["10.0.0.9"; "010.0.0.1"; "9.255.0.3"]).
  repeat constructor.
Defined.

(** C10. For every list of addresses the reader accepts, every string
    [sort_ips] returns is canonical: it is [int_to_ip] of its own integer
    value and has no leading zero in any octet.  The accepted input
    ["001.002.003.004"] comes out as ["1.2.3.4"], so the output need not
    be a permutation of the input strings. *)
Theorem sort_ips_canonical :
  (forall l, valid_list l ->
   exists out,
     sort_ips l = Ret out /\
     Forall (fun s => (exists n, ip_to_int s = Ret n /\ int_to_ip n = s)
                      /\ canonical s = true) out) /\
  (valid_list ["001.002.003.004"] /\
   sort_ips ["001.002.003.004"] = Ret ["1.2.3.4"] /\
   ~ Permutation ["001.002.003.004"] ["1.2.3.4"]).
Proof.
  split.
  - intros l Hl. destruct (sort_ips_valid _ Hl) as (ns & Hns & Hs & Hout).
    exists (map int_to_ip (list_sort ns)). split; [assumption|].
    apply Forall_forall. intros s Hin.
    apply in_map_iff in Hin. destruct Hin as (n & <- & Hin). split.
    + exists n. split; [|reflexivity].
      destruct (valid_list_ints _ Hl) as (ns' & Hns' & Hr).
      assert (ns' = ns) as ->.
      { apply mapM_Forall2 in Hns, Hns'. congruence. }
      apply (list_sort_Forall _ _) in Hr. rewrite Forall_forall in Hr.
      apply int_to_ip_then_ip_to_int, Hr, Hin.
    + apply int_to_ip_canonical.
  - split; [repeat constructor|]. split; [vm_compute; reflexivity|].
    intros H. apply Permutation_length_1 in H. discriminate.
Qed.

Lemma sort_ips_canonical_witness :
  exists out,
    sort_ips ["10.0.0.9"; "010.0.0.1"] = Ret out /\
    Forall (fun s => (exists n, ip_to_int s = Ret n /\ int_to_ip n = s)
                     /\ canonical s = true) out.
Proof.
  apply (proj1 sort_ips_canonical ["10.0.0.9"; "010.0.0.1"]).
  repeat constructor.
Defined.

(** ** The range filler as a function of the addresses and their values *)

Lemma extends_spec a ia b ib :
  extends a ia b ib = true <-> network b = network a /\ 0 < ib - ia <= 6.
Proof.
  unfold extends. rewrite !andb_true_iff, String.eqb_eq, Z.ltb_lt, Z.leb_le.
  tauto.
Qed.

Lemma emit_segment_out res s si e ei :
  ip_to_int s = Ret si -> ip_to_int e = Ret ei ->
  emit_segment res s e = Ret (res ++ segment_out s si e ei).
Proof.
  intros Hs He. unfold emit_segment, segment_out, generate_ip_range.
  destruct (String.eqb s e); [reflexivity|].
  now rewrite Hs, He, !bind_Ret.
Qed.

Lemma loop_fill rest ns :
  ints_of rest ns ->
  forall st si,
    end_ip st = previous_ip st ->
    ip_to_int (previous_ip st) = Ret (previous_int st) ->
    ip_to_int (start_ip st) = Ret si ->
    (st' <- foldM loop_body rest st ;;
     emit_segment (result st') (start_ip st') (end_ip st'))
    = Ret (result st ++
           fill (start_ip st) si (previous_ip st) (previous_int st)
             (combine rest ns)).
Proof.
  induction 1 as [|c ci rest ns Hc _ IH]; intros st si He Hp Hs.
  - cbn [foldM combine fill]. rewrite bind_Ret, He.
    now apply emit_segment_out.
  - cbn [foldM combine fill]. unfold loop_body at 1. rewrite Hc, bind_Ret.
    destruct (extends (previous_ip st) (previous_int st) c ci).
    + rewrite bind_Ret. now rewrite (IH _ si) by (cbn [end_ip previous_ip previous_int start_ip]; auto).
    + rewrite He, (emit_segment_out _ _ si _ _ Hs Hp), !bind_Ret.
      rewrite (IH _ ci) by (cbn [end_ip previous_ip previous_int start_ip]; auto).
      cbn [result start_ip previous_ip previous_int].
      now rewrite <- app_assoc.
Qed.

Lemma process_ips_fill a ia rest ns :
  ip_to_int a = Ret ia -> ints_of rest ns ->
  process_ips (a :: rest) = Ret (fill a ia a ia (combine rest ns)).
Proof.
  intros Ha Hr. unfold process_ips. rewrite Ha, bind_Ret.
  now rewrite (loop_fill _ _ Hr _ ia).
Qed.

(** ** Ranges *)

Lemma map_seq_shift {A : Type} (f : nat -> A) a n :
  map f (seq a n) = map (fun k => f (a + k)%nat) (seq 0 n).
Proof.
  revert a. induction n as [|n IH]; intros a; simpl; [reflexivity|].
  rewrite Nat.add_0_r. f_equal.
  rewrite (IH (S a)), <- seq_shift, map_map.
  apply map_ext. intros k. f_equal. lia.
Qed.

Lemma py_range_app lo mid hi :
  lo <= mid <= hi -> py_range lo hi = py_range lo mid ++ py_range mid hi.
Proof.
  intros H. unfold py_range.
  replace (Z.to_nat (hi - lo)) with (Z.to_nat (mid - lo) + Z.to_nat (hi - mid))%nat by lia.
  rewrite seq_app, map_app. f_equal.
  rewrite map_seq_shift. apply map_ext. intros k. lia.
Qed.

Lemma py_range_In lo hi x : In x (py_range lo hi) <-> lo <= x < hi.
Proof.
  unfold py_range. rewrite in_map_iff. split.
  - intros (k & <- & Hk). apply in_seq in Hk. lia.
  - intros H. exists (Z.to_nat (x - lo)). split; [lia|]. apply in_seq. lia.
Qed.

Lemma py_range_cons lo hi : lo < hi -> py_range lo hi = lo :: py_range (lo + 1) hi.
Proof.
  intros H. rewrite (py_range_app lo (lo + 1) hi) by lia.
  unfold py_range at 1. replace (lo + 1 - lo) with 1 by lia.
  simpl. now rewrite Z.add_0_r.
Qed.

Lemma py_range_nil lo hi : hi <= lo -> py_range lo hi = [].
Proof.
  intros H. unfold py_range. now replace (Z.to_nat (hi - lo)) with 0%nat by lia.
Qed.

(** ** Addresses paired with their values *)

Lemma value_eq ip n : ip_to_int ip = Ret n -> value ip = n.
Proof. unfold value. now intros ->. Qed.

Lemma items_ok l : convertible l -> Forall item_ok (items l).
Proof.
  induction 1 as [|ip l (n & Hn) _ IH]; simpl; constructor; [|assumption].
  unfold item_ok. simpl. now rewrite (value_eq _ _ Hn).
Qed.

Lemma items_ints l : convertible l -> ints_of l (map snd (items l)).
Proof.
  induction 1 as [|ip l (n & Hn) _ IH]; simpl; constructor; [|assumption].
  now rewrite (value_eq _ _ Hn).
Qed.

Lemma combine_items l : combine l (map snd (items l)) = items l.
Proof. induction l as [|ip l IH]; simpl; [reflexivity|now rewrite IH]. Qed.

Lemma valid_convertible l : valid_list l -> convertible l.
Proof.
  induction 1 as [|ip l Hip _ IH]; constructor; [|assumption].
  destruct (valid_ip_to_int _ Hip) as (n & Hn & _). now exists n.
Qed.

Lemma process_ips_items a rest :
  convertible (a :: rest) ->
  process_ips (a :: rest) = Ret (fill a (value a) a (value a) (items rest)).
Proof.
  intros H. inversion H as [|? ? (n & Hn) Hr]; subst.
  rewrite (process_ips_fill a n rest (map snd (items rest)) Hn (items_ints _ Hr)).
  now rewrite combine_items, (value_eq _ _ Hn).
Qed.

Lemma process_ips_total l : convertible l -> exists out, process_ips l = Ret out.
Proof.
  destruct l as [|a rest]; intros H; [now exists []|].
  eexists. now apply process_ips_items.
Qed.

(** ** Where a segment is closed *)

(** When the address [c] does not extend the segment of the address
    before it, the output up to that point is complete and the rest is
    the output for the addresses from [c] on. *)
Lemma fill_cut r1 :
  forall start si prev pi pre a ia c ci r2,
    (prev, pi) :: r1 = pre ++ [(a, ia)] ->
    extends a ia c ci = false ->
    fill start si prev pi (r1 ++ (c, ci) :: r2)
    = fill start si prev pi r1 ++ fill c ci c ci r2.
Proof.
  induction r1 as [|[d di] r1 IH]; intros start si prev pi pre a ia c ci r2 Hl Hx.
  - destruct pre as [|x pre]; [|destruct pre; discriminate].
    injection Hl as -> ->. cbn [app fill]. now rewrite Hx.
  - destruct pre as [|x pre]; [discriminate|]. injection Hl as _ Hl.
    cbn [app fill]. destruct (extends prev pi d di).
    + now apply (IH _ _ _ _ pre a ia).
    + rewrite <- app_assoc. f_equal. now apply (IH _ _ _ _ pre a ia).
Qed.

Lemma process_ips_cut l1 a b l2 :
  convertible (l1 ++ a :: b :: l2) ->
  extends a (value a) b (value b) = false ->
  exists o1 o2,
    process_ips (l1 ++ [a]) = Ret o1 /\
    process_ips (b :: l2) = Ret o2 /\
    process_ips (l1 ++ a :: b :: l2) = Ret (o1 ++ o2).
Proof.
  intros Hc Hx.
  assert (Hc1 : convertible (l1 ++ [a])).
  { unfold convertible in *. rewrite Forall_app in Hc |- *.
    destruct Hc as [H1 H2]. inversion H2; subst. split; [assumption|].
    constructor; [assumption|constructor]. }
  assert (Hc2 : convertible (b :: l2)).
  { unfold convertible in *. rewrite Forall_app in Hc.
    destruct Hc as [_ H2]. now inversion H2. }
  destruct (l1 ++ [a]) as [|h t] eqn:E1; [now destruct l1|].
  exists (fill h (value h) h (value h) (items t)),
         (fill b (value b) b (value b) (items l2)).
  split; [now apply process_ips_items|]. split; [now apply process_ips_items|].
  replace (l1 ++ a :: b :: l2) with (h :: t ++ b :: l2) in *
    by (change (h :: t ++ b :: l2) with ((h :: t) ++ b :: l2);
        rewrite <- E1, <- app_assoc; reflexivity).
  rewrite (process_ips_items _ _ Hc). f_equal.
  unfold items at 1. rewrite map_app. cbn [map]. fold (items t) (items l2).
  apply (fill_cut _ _ _ _ _ (items l1) a (value a)); [|assumption].
  change ((h, value h) :: items t) with (items (h :: t)).
  rewrite <- E1. unfold items. now rewrite map_app.
Qed.

(** ** The segment that is open *)

(** The segment opened at [start_ip] is closed at [prev] or at a later
    address of greater value. *)
Lemma fill_head rest :
  forall start si prev pi,
    Forall item_ok rest ->
    exists e ei tail,
      fill start si prev pi rest = segment_out start si e ei ++ tail /\
      (e = prev /\ ei = pi \/ item_ok (e, ei) /\ pi < ei).
Proof.
  induction rest as [|[c ci] rest IH]; intros start si prev pi Hr.
  - exists prev, pi, []. cbn [fill]. rewrite List.app_nil_r. auto.
  - inversion Hr as [|? ? Hc Hr']; subst. cbn [fill].
    destruct (extends prev pi c ci) eqn:Hx.
    + apply extends_spec in Hx. destruct Hx as [_ Hd].
      destruct (IH start si c ci Hr') as (e & ei & tail & Hf & He).
      exists e, ei, tail. split; [assumption|]. right.
      destruct He as [[-> ->]|[He Hlt]]; split; try assumption; lia.
    + exists prev, pi, (fill c ci c ci rest). auto.
Qed.

Lemma segment_out_range start si e ei :
  ip_to_int start = Ret si -> ip_to_int e = Ret ei -> si < ei ->
  segment_out start si e ei = map int_to_ip (py_range si (ei + 1)).
Proof.
  intros Hs He Hlt. unfold segment_out.
  destruct (String.eqb_spec start e) as [->|Hne]; [|reflexivity].
  rewrite Hs in He. injection He as He. lia.
Qed.

(** Two neighbours of which the second extends the segment: every value
    from the first to the second is written, in order. *)
Lemma fill_range pre :
  forall start si prev pi rest a ia b ib post,
    (prev, pi) :: rest = pre ++ (a, ia) :: (b, ib) :: post ->
    Forall item_ok rest -> ip_to_int start = Ret si -> si <= pi ->
    extends a ia b ib = true ->
    exists o1 o2,
      fill start si prev pi rest
      = o1 ++ map int_to_ip (py_range ia (ib + 1)) ++ o2.
Proof.
  induction pre as [|x pre IH];
    intros start si prev pi rest a ia b ib post Hl Hr Hs Hle Hx.
  - injection Hl as -> -> ->. cbn [fill]. rewrite Hx.
    inversion Hr as [|? ? Hb Hr']; subst.
    apply extends_spec in Hx. destruct Hx as [_ Hd].
    destruct (fill_head post start si b ib Hr') as (e & ei & tail & Hf & He).
    assert (Hei : ip_to_int e = Ret ei /\ ib <= ei).
    { destruct He as [[-> ->]|[He Hlt]]; split; try assumption; lia. }
    destruct Hei as [Hei Hle'].
    rewrite Hf, (segment_out_range _ _ _ _ Hs Hei) by lia.
    exists (map int_to_ip (py_range si ia)),
           (map int_to_ip (py_range (ib + 1) (ei + 1)) ++ tail).
    rewrite (py_range_app si ia (ei + 1)) by lia.
    rewrite (py_range_app ia (ib + 1) (ei + 1)) by lia.
    now rewrite !map_app, <- !app_assoc.
  - injection Hl as _ Hl.
    destruct rest as [|[c ci] rest]; [now destruct pre|].
    inversion Hr as [|? ? Hc Hr']; subst. cbn [fill].
    destruct (extends prev pi c ci) eqn:Hx'.
    + apply extends_spec in Hx'. destruct Hx' as [_ Hd].
      apply (IH start si c ci rest a ia b ib post); auto. lia.
    + destruct (IH c ci c ci rest a ia b ib post) as (o1 & o2 & Hf); auto; [lia|].
      exists (segment_out start si prev pi ++ o1), o2.
      now rewrite Hf, <- app_assoc.
Qed.

Lemma extends_false a ia b ib :
  ~ (network b = network a /\ 0 < ib - ia <= 6) -> extends a ia b ib = false.
Proof.
  intros H. destruct (extends a ia b ib) eqn:E; [|reflexivity].
  now apply extends_spec in E.
Qed.

Lemma segment_out_single a ia : segment_out a ia a ia = [a].
Proof. unfold segment_out. now rewrite String.eqb_refl. Qed.

Lemma process_ips_single_head b c post :
  convertible (b :: c :: post) ->
  extends b (value b) c (value c) = false ->
  exists o, process_ips (c :: post) = Ret o /\
            process_ips (b :: c :: post) = Ret (b :: o).
Proof.
  intros Hc Hx. exists (fill c (value c) c (value c) (items post)). split.
  - apply process_ips_items. now inversion Hc.
  - rewrite (process_ips_items _ _ Hc). cbn [items map fill].
    now rewrite Hx, segment_out_single.
Qed.

(** ** The range filler: filled gaps (C1) *)

(** C1. When the address read has the /24 prefix of the one before it
    and exceeds it by [diff] with [0 < diff <= 6], the loop of
    [process_ips] moves the end of the open segment to it and writes
    nothing yet; the output then holds every address from the first of
    the two to the second, in order, and for a two-element input the
    output is exactly that range.  In particular
    [["192.168.1.1"; "192.168.1.7"]] gives the seven addresses
    [192.168.1.1] to [192.168.1.7]. *)
Theorem process_ips_fills_gap :
  (forall st current_ip current_int,
     ip_to_int current_ip = Ret current_int ->
     network current_ip = network (previous_ip st) ->
     0 < current_int - previous_int st <= 6 ->
     loop_body st current_ip =
     Ret (mk_loop_state (result st) current_ip current_int (start_ip st) current_ip)) /\
  (forall pre a b post ia ib,
     convertible (pre ++ a :: b :: post) ->
     ip_to_int a = Ret ia -> ip_to_int b = Ret ib ->
     network b = network a -> 0 < ib - ia <= 6 ->
     exists out o1 o2,
       process_ips (pre ++ a :: b :: post) = Ret out /\
       out = o1 ++ map int_to_ip (py_range ia (ib + 1)) ++ o2) /\
  (forall a b ia ib,
     ip_to_int a = Ret ia -> ip_to_int b = Ret ib ->
     network b = network a -> 0 < ib - ia <= 6 ->
     process_ips [a; b] = Ret (map int_to_ip (py_range ia (ib + 1)))) /\
  process_ips ["192.168.1.1"; "192.168.1.7"] =
  Ret ["192.168.1.1"; "192.168.1.2"; "192.168.1.3"; "192.168.1.4";
       "192.168.1.5"; "192.168.1.6"; "192.168.1.7"].
Proof.
  split; [|split; [|split]].
  - intros st c ci Hc Hn Hd. unfold loop_body. rewrite Hc, bind_Ret.
    now rewrite (proj2 (extends_spec _ _ _ _) (conj Hn Hd)).
  - intros pre a b post ia ib Hl Ha Hb Hn Hd.
    assert (Hx : extends a ia b ib = true) by now apply extends_spec.
    assert (Hi : items (pre ++ a :: b :: post)
                 = items pre ++ (a, ia) :: (b, ib) :: items post).
    { unfold items. rewrite map_app. cbn [map].
      now rewrite (value_eq _ _ Ha), (value_eq _ _ Hb). }
    pose proof (items_ok _ Hl) as Hok.
    destruct (pre ++ a :: b :: post) as [|h t] eqn:E; [now destruct pre|].
    rewrite (process_ips_items _ _ Hl).
    cbn [items map] in Hi, Hok. fold (items t) in Hi, Hok.
    inversion Hok as [|? ? Hh Hok']; subst.
    destruct (fill_range _ h (value h) h (value h) (items t) a ia b ib _ Hi Hok')
      as (o1 & o2 & Hf); [exact Hh|lia|exact Hx|].
    exists (fill h (value h) h (value h) (items t)), o1, o2. auto.
  - intros a b ia ib Ha Hb Hn Hd.
    assert (Hc : convertible [a; b]).
    { constructor; [now exists ia|]. constructor; [now exists ib|constructor]. }
    rewrite (process_ips_items _ _ Hc). cbn [items map fill].
    rewrite (value_eq _ _ Ha), (value_eq _ _ Hb).
    rewrite (proj2 (extends_spec _ _ _ _) (conj Hn Hd)).
    apply f_equal, segment_out_range; [assumption..|lia].
  - vm_compute. reflexivity.
Qed.

Lemma process_ips_fills_gap_witness :
  exists out o1 o2,
    process_ips (["10.0.0.250"] ++ "10.0.1.3" :: "10.0.1.5" :: ["10.0.1.6"]) = Ret out /\
    out = o1 ++ map int_to_ip (py_range 167772419 (167772421 + 1)) ++ o2.
Proof.
  apply (proj1 (proj2 process_ips_fills_gap)
           ["10.0.0.250"] "10.0.1.3" "10.0.1.5" ["10.0.1.6"]
           167772419 167772421).
  - repeat constructor; eexists; vm_compute; reflexivity.
  - vm_compute. reflexivity.
  - vm_compute. reflexivity.
  - vm_compute. reflexivity.
  - lia.
Defined.

(** ** The range filler: gaps left open (C2) *)

(** C2. For a two-element input whose addresses do not both share the
    /24 prefix and differ by [diff] with [0 < diff <= 6], [process_ips]
    returns the two addresses unchanged and nothing else:
    [["192.168.1.1"; "192.168.1.9"]] ([diff = 8]) and
    [["192.168.1.254"; "192.168.2.2"]] ([diff = 4], different prefixes)
    come out as they are. *)
Theorem process_ips_no_fill :
  (forall a b ia ib,
     ip_to_int a = Ret ia -> ip_to_int b = Ret ib ->
     ~ (network b = network a /\ 0 < ib - ia <= 6) ->
     process_ips [a; b] = Ret [a; b]) /\
  (value "192.168.1.9" - value "192.168.1.1" = 8 /\
   process_ips ["192.168.1.1"; "192.168.1.9"] = Ret ["192.168.1.1"; "192.168.1.9"]) /\
  (value "192.168.2.2" - value "192.168.1.254" = 4 /\
   network "192.168.2.2" <> network "192.168.1.254" /\
   process_ips ["192.168.1.254"; "192.168.2.2"]
   = Ret ["192.168.1.254"; "192.168.2.2"]).
Proof.
  split; [|split].
  - intros a b ia ib Ha Hb Hn.
    assert (Hc : convertible [a; b]).
    { constructor; [now exists ia|]. constructor; [now exists ib|constructor]. }
    rewrite (process_ips_items _ _ Hc). cbn [items map fill].
    rewrite (value_eq _ _ Ha), (value_eq _ _ Hb).
    now rewrite (extends_false _ _ _ _ Hn), !segment_out_single.
  - split; vm_compute; reflexivity.
  - split; [vm_compute; reflexivity|]. split; [|vm_compute; reflexivity].
    vm_compute. discriminate.
Qed.

Lemma process_ips_no_fill_witness :
  process_ips ["172.16.0.255"; "172.16.1.0"] = Ret ["172.16.0.255"; "172.16.1.0"].
Proof.
  apply (proj1 process_ips_no_fill "172.16.0.255" "172.16.1.0" 2886729983 2886729984).
  - vm_compute. reflexivity.
  - vm_compute. reflexivity.
  - vm_compute. intros [H _]. discriminate.
Defined.

(** ** The range filler: duplicates (C3) *)

(** C3, counterexample.  On [10.0.0.3, 10.0.0.5, 10.0.0.5, 10.0.0.7] the
    output is [.3 .4 .5 .5 .6 .7]: the duplicate opens a segment that the
    next address extends, and is written as the start of the range
    [.5 .6 .7], not as a single-address entry. *)
Lemma duplicate_single_entry_fails : ~ duplicate_single_entry.
Proof.
  intros H.
  destruct (H ["10.0.0.3"] "10.0.0.5" "10.0.0.5" ["10.0.0.7"])
    as (o1 & o2 & H1 & H2 & H3).
  - repeat constructor.
  - vm_compute. repeat constructor; discriminate.
  - vm_compute. reflexivity.
  - vm_compute in H1. vm_compute in H2. injection H1 as <-. injection H2 as <-.
    vm_compute in H3. discriminate.
Qed.

(** C3, amended.  An address equal in value to the one before it
    ([diff = 0]) is not merged with it: it closes the open segment and
    opens a new one at the duplicate, so the output is the output for
    the addresses up to the first copy followed by the output for the
    addresses from the duplicate on.  The duplicate is written as a
    single-address entry when no address follows it or the next one does
    not extend its segment; [["10.0.0.5"; "10.0.0.5"]] gives
    [["10.0.0.5"; "10.0.0.5"]]. *)
Theorem process_ips_duplicate :
  (forall st current_ip,
     ip_to_int current_ip = Ret (previous_int st) ->
     loop_body st current_ip =
     (result' <- emit_segment (result st) (start_ip st) (end_ip st) ;;
      Ret (mk_loop_state result' current_ip (previous_int st) current_ip current_ip))) /\
  (forall pre a b post,
     convertible (pre ++ a :: b :: post) -> value b - value a = 0 ->
     exists o1 o2,
       process_ips (pre ++ [a]) = Ret o1 /\
       process_ips (b :: post) = Ret o2 /\
       process_ips (pre ++ a :: b :: post) = Ret (o1 ++ o2)) /\
  (forall b, convertible [b] -> process_ips [b] = Ret [b]) /\
  (forall b c post,
     convertible (b :: c :: post) ->
     ~ (network c = network b /\ 0 < value c - value b <= 6) ->
     exists o, process_ips (c :: post) = Ret o /\
               process_ips (b :: c :: post) = Ret (b :: o)) /\
  process_ips ["10.0.0.5"; "10.0.0.5"] = Ret ["10.0.0.5"; "10.0.0.5"].
Proof.
  split; [|split; [|split; [|split]]].
  - intros st c Hc. unfold loop_body. rewrite Hc, bind_Ret.
    unfold extends. rewrite Z.sub_diag. cbn [Z.ltb Z.compare andb].
    now rewrite andb_false_r.
  - intros pre a b post Hc Hd. apply process_ips_cut; [assumption|].
    apply extends_false. intros [_ H]. lia.
  - intros b Hc. rewrite (process_ips_items _ _ Hc). cbn [items map fill].
    now rewrite segment_out_single.
  - intros b c post Hc Hn. apply process_ips_single_head; [assumption|].
    now apply extends_false.
  - vm_compute. reflexivity.
Qed.

Lemma process_ips_duplicate_witness :
  exists o1 o2,
    process_ips (["10.0.0.3"] ++ ["10.0.0.5"]) = Ret o1 /\
    process_ips ("10.0.0.5" :: ["10.0.0.7"]) = Ret o2 /\
    process_ips (["10.0.0.3"] ++ "10.0.0.5" :: "10.0.0.5" :: ["10.0.0.7"])
    = Ret (o1 ++ o2).
Proof.
  apply (proj1 (proj2 process_ips_duplicate)
           ["10.0.0.3"] "10.0.0.5" "10.0.0.5" ["10.0.0.7"]).
  - repeat constructor; eexists; vm_compute; reflexivity.
  - vm_compute. reflexivity.
Defined.

(** ** The range filler: order of the output (C4) *)

Lemma ss_app l1 l2 :
  StronglySorted Z.le l1 -> StronglySorted Z.le l2 ->
  (forall x y, In x l1 -> In y l2 -> x <= y) ->
  StronglySorted Z.le (l1 ++ l2).
Proof.
  induction 1 as [|x l1 Hs IH Hx]; intros H2 Hle; [assumption|].
  simpl. constructor.
  - apply IH; [assumption|]. intros u v Hu Hv. apply Hle; [now right|assumption].
  - apply Forall_app. split; [assumption|].
    apply Forall_forall. intros y Hy. apply Hle; [now left|assumption].
Qed.

Lemma py_range_sorted lo hi : StronglySorted Z.le (py_range lo hi).
Proof.
  remember (Z.to_nat (hi - lo)) as n eqn:En. revert lo En.
  induction n as [|n IH]; intros lo En.
  - rewrite py_range_nil by lia. constructor.
  - rewrite py_range_cons by lia. constructor; [apply IH; lia|].
    apply Forall_forall. intros x Hx. apply py_range_In in Hx. lia.
Qed.




Lemma in_items s n l : In (s, n) (items l) -> In s l /\ n = value s.
Proof.
  unfold items. rewrite in_map_iff. intros (ip & E & Hin).
  injection E as <- <-. auto.
Qed.




(** ** The reader (C7) *)

Lemma read_lines_filter lines :
  test_returns lines ->
  forall ips log,
    foldM read_line lines (ips, log)
    = Ret (ips ++ kept lines, log ++ warned lines).
Proof.
  induction 1 as [|line lines (b & Hb) _ IH]; intros ips log.
  - cbn [foldM]. unfold kept, warned. cbn [map filter].
    now rewrite !List.app_nil_r.
  - cbn [foldM]. unfold kept, warned, read_line at 1. cbn [map filter].
    destruct (strip line) as [|c r] eqn:Es.
    + rewrite bind_Ret. cbn [non_blank String.eqb negb]. apply IH.
    + assert (Hacc : accepted (String c r) = b)
        by (unfold accepted; now rewrite Hb).
      rewrite Hb, !bind_Ret.
      change (non_blank (String c r)) with true. cbn iota. cbn [filter].
      rewrite Hacc.
      destruct b; cbn [negb map]; rewrite ?bind_Ret, IH; unfold kept, warned;
        now rewrite <- !app_assoc.
Qed.

Lemma ascii_digit c :
  is_ascii c = true -> is_digit_char c = true ->
  Ascii.eqb c "_" = false /\ exists k, digit_value c = Some k.
Proof.
  destruct c as [[|] [|] [|] [|] [|] [|] [|] [|]]; vm_compute;
    intros H1 H2; try discriminate; split; try reflexivity; eexists; reflexivity.
Qed.

Lemma int_digits_ascii s :
  all_chars is_ascii s = true -> all_chars is_digit_char s = true ->
  forall acc, exists v, int_digits acc s = Some v.
Proof.
  induction s as [|c r IH]; intros Ha Hd acc; [now exists acc|].
  simpl in Ha, Hd. apply andb_true_iff in Ha, Hd.
  destruct Ha as [Hc Ha], Hd as [Hc' Hd].
  destruct (ascii_digit _ Hc Hc') as (Hu & k & Hk).
  cbn [int_digits]. rewrite Hu, Hk. now apply IH.
Qed.

Lemma count_digits_length s : count_digits s <= Z.of_nat (String.length s).
Proof.
  induction s as [|c r IH]; [reflexivity|]. cbn [count_digits String.length].
  destruct (digit_value c); lia.
Qed.

Lemma octet_ok_ascii p :
  all_chars is_ascii p = true -> short p -> exists b, octet_ok p = Ret b.
Proof.
  intros Ha Hs. unfold octet_ok. destruct (isdigit p) eqn:Hd; [|now exists false].
  rewrite (py_int_isdigit _ Hd).
  assert (Hd' : all_chars is_digit_char p = true) by (destruct p; [discriminate|exact Hd]).
  destruct (int_digits_ascii _ Ha Hd' 0) as [v ->].
  destruct (Z.ltb_spec int_max_str_digits (count_digits p)) as [Hgt|_].
  - pose proof (count_digits_length p). unfold short in Hs. lia.
  - rewrite bind_Ret. eauto.
Qed.

Lemma split_length sep s :
  Forall (fun q => (String.length q <= String.length s)%nat) (split sep s).
Proof.
  induction s as [|c r IH]; simpl; [constructor; [simpl; lia|constructor]|].
  destruct (Ascii.eqb c sep).
  - constructor; [simpl; lia|].
    eapply Forall_impl; [|exact IH]. intros q Hq. cbn beta in Hq. lia.
  - destruct (split sep r) as [|q qs]; [constructor; [simpl; lia|constructor]|].
    inversion IH as [|? ? Hq Hqs]; subst. constructor; [simpl; lia|].
    eapply Forall_impl; [|exact Hqs]. intros x Hx. cbn beta in Hx. lia.
Qed.

Lemma lstrip_length sp s :
  (String.length (lstrip_by sp s) <= String.length s)%nat.
Proof.
  induction s as [|c r IH]; simpl; [lia|]. destruct (sp c); simpl; lia.
Qed.

Lemma rstrip_length sp s :
  (String.length (rstrip_by sp s) <= String.length s)%nat.
Proof.
  induction s as [|c r IH]; simpl; [lia|].
  destruct (rstrip_by sp r) as [|d r'].
  - destruct (sp c); simpl; lia.
  - simpl in *. lia.
Qed.

Lemma split_all_chars (P : ascii -> bool) sep s :
  all_chars P s = true -> Forall (fun q => all_chars P q = true) (split sep s).
Proof.
  induction s as [|c r IH]; simpl; intros H; [repeat constructor|].
  apply andb_true_iff in H. destruct H as [Hc Hr]. specialize (IH Hr).
  destruct (Ascii.eqb c sep); [constructor; [reflexivity|assumption]|].
  destruct (split sep r) as [|q qs]; [repeat constructor; simpl; now rewrite Hc|].
  inversion IH; subst. constructor; [simpl; now rewrite Hc|assumption].
Qed.

Lemma lstrip_all_chars (P sp : ascii -> bool) s :
  all_chars P s = true -> all_chars P (lstrip_by sp s) = true.
Proof.
  induction s as [|c r IH]; simpl; intros H; [reflexivity|].
  destruct (sp c); [|exact H]. apply andb_true_iff in H. now apply IH.
Qed.

Lemma rstrip_all_chars (P sp : ascii -> bool) s :
  all_chars P s = true -> all_chars P (rstrip_by sp s) = true.
Proof.
  induction s as [|c r IH]; simpl; intros H; [reflexivity|].
  apply andb_true_iff in H. destruct H as [Hc Hr]. specialize (IH Hr).
  destruct (rstrip_by sp r) as [|d r'].
  - destruct (sp c); simpl; [reflexivity|now rewrite Hc].
  - change (all_chars P (String c (String d r')))
      with (P c && all_chars P (String d r')). now rewrite Hc, IH.
Qed.

Lemma allM_returns {A : Type} (f : A -> exc bool) l :
  Forall (fun x => exists b, f x = Ret b) l -> exists b, allM f l = Ret b.
Proof.
  induction 1 as [|x l (b & Hb) _ (b' & IH)]; simpl; [now exists true|].
  rewrite Hb, bind_Ret. destruct b; [now exists b'|now exists false].
Qed.

Lemma valid_ip_ascii ip : plain ip -> exists b, valid_ip ip = Ret b.
Proof.
  intros [Ha Hs]. unfold valid_ip.
  destruct (Nat.eqb (List.length (split "." ip)) 4); [|now exists false].
  apply allM_returns.
  pose proof (split_all_chars _ "." _ Ha) as H1.
  pose proof (split_length "." ip) as H2.
  rewrite Forall_forall in H1, H2. apply Forall_forall. intros p Hp.
  apply octet_ok_ascii; [now apply H1|].
  specialize (H2 _ Hp). cbn beta in H2. unfold short in *. lia.
Qed.

Lemma strip_plain line : plain line -> plain (strip line).
Proof.
  intros [Ha Hs]. unfold strip. split.
  - now apply rstrip_all_chars, lstrip_all_chars.
  - pose proof (rstrip_length is_space (lstrip_by is_space line)).
    pose proof (lstrip_length is_space line). unfold short in *. lia.
Qed.

(** On a readable file of ASCII text whose lines have at most 4300
    characters, the reader does what C7 says: it returns the stripped
    non-blank lines that pass the test, in order, and warns about the
    others. *)
Lemma read_ip_file_ascii lines :
  Forall plain lines ->
  read_ip_file (Readable lines) = Ret (kept lines, warned lines).
Proof.
  intros H. unfold read_ip_file. rewrite read_lines_filter; [reflexivity|].
  eapply Forall_impl; [|exact H]. intros line Hl.
  now apply valid_ip_ascii, strip_plain.
Qed.

Lemma read_ip_file_example :
  read_ip_file (Readable ["999.1.1.1" ++ newline; "1.2.3" ++ newline; newline;
                      " 10.0.0.1 " ++ newline; "010.0.0.2"])%string
  = Ret (["10.0.0.1"; "010.0.0.2"],
         [Warn_invalid_ip "999.1.1.1"; Warn_invalid_ip "1.2.3"]).
Proof. vm_compute. reflexivity. Qed.

(** C7.  The reader is to discard every line that is not four octets,
    with a warning, and go on.  On a file whose second line is
    [superscript_line] it does not: the first part passes [isdigit],
    [int] raises [ValueError] on it, the handler for [Exception] catches
    that and the program exits with status 1, although the first line
    was valid and the spec wants [["1.2.3.4"]] and one warning. *)
Theorem read_ip_file_superscript_exits :
  isdigit (String "178" "0") = true /\
  py_int (String "178" "0") = Raise ValueError /\
  read_ip_file (Readable ["1.2.3.4"; superscript_line]) = Raise (SystemExit 1) /\
  kept ["1.2.3.4"; superscript_line] = ["1.2.3.4"] /\
  warned ["1.2.3.4"; superscript_line] = [Warn_invalid_ip superscript_line].
Proof. repeat split; vm_compute; reflexivity. Qed.

(** * Further properties of the program *)

(** ** [int_to_ip] on every integer *)

Lemma octet_ok_py_str_byte b : 0 <= b <= 255 -> octet_ok (py_str b) = Ret true.
Proof.
  intros Hb.
  pose (P := fun b => match octet_ok (py_str b) with
                      | Ret ok => ok
                      | Raise _ => false
                      end).
  assert (HP : P b = true) by (apply byte_forall; [vm_compute; reflexivity | exact Hb]).
  unfold P in HP. destruct (octet_ok (py_str b)) as [ok|e]; [|discriminate].
  now subst.
Qed.

Lemma valid_ip_int_to_ip x : valid_ip (int_to_ip x) = Ret true.
Proof.
  unfold valid_ip. rewrite split_int_to_ip. cbn [List.length Nat.eqb allM].
  rewrite !octet_ok_py_str_byte by apply land_255_range.
  now rewrite !bind_Ret.
Qed.

Lemma int_to_ip_mod x : int_to_ip (x mod 2 ^ 32) = int_to_ip x.
Proof.
  unfold int_to_ip.
  assert (H : forall k, k = 0 \/ k = 8 \/ k = 16 \/ k = 24 ->
              Z.land (Z.shiftr (x mod 2 ^ 32) k) 255 = Z.land (Z.shiftr x k) 255).
  { intros k Hk. rewrite !land_255, !Z.shiftr_div_pow2 by lia.
    change (2 ^ 32) with 4294967296.
    destruct Hk as [->|[->|[->| ->]]];
      [change (2 ^ 0) with 1 | change (2 ^ 8) with 256
       | change (2 ^ 16) with 65536 | change (2 ^ 24) with 16777216];
      Z.div_mod_to_equations; lia. }
  rewrite (H 24), (H 16), (H 8) by tauto.
  specialize (H 0). rewrite !Z.shiftr_0_r in H. now rewrite H by tauto.
Qed.

(** X1. For every integer [x], negative or beyond 32 bits included,
    [int_to_ip x] is an address the reader's test accepts, written
    without leading zeros; it depends only on [x mod 2^32], and
    [ip_to_int] reads it back as [x mod 2^32]. *)
Theorem int_to_ip_total :
  forall x,
    valid_ip (int_to_ip x) = Ret true /\
    canonical (int_to_ip x) = true /\
    int_to_ip (x mod 2 ^ 32) = int_to_ip x /\
    ip_to_int (int_to_ip x) = Ret (x mod 2 ^ 32).
Proof.
  intros x. split; [apply valid_ip_int_to_ip|].
  split; [apply int_to_ip_canonical|].
  split; [apply int_to_ip_mod|apply ip_to_int_int_to_ip].
Qed.

(** X2. An address the reader's test accepts is converted by
    [ip_to_int] without error to a value [n] with [0 <= n < 2^32], and
    [int_to_ip n] is an accepted address of the same value: rewriting an
    address in canonical form does not change what it denotes. *)
Theorem valid_ip_value :
  forall ip, valid_ip ip = Ret true ->
  exists n,
    ip_to_int ip = Ret n /\ 0 <= n < 2 ^ 32 /\
    valid_ip (int_to_ip n) = Ret true /\ ip_to_int (int_to_ip n) = Ret n.
Proof.
  intros ip H. destruct (valid_ip_to_int _ H) as (n & Hn & Hr).
  exists n. repeat split; try assumption; try lia.
  - apply valid_ip_int_to_ip.
  - now apply int_to_ip_then_ip_to_int.
Qed.

Lemma valid_ip_value_witness :
  exists n,
    ip_to_int "010.001.000.255" = Ret n /\ 0 <= n < 2 ^ 32 /\
    valid_ip (int_to_ip n) = Ret true /\ ip_to_int (int_to_ip n) = Ret n.
Proof.
  apply (valid_ip_value "010.001.000.255"). vm_compute. reflexivity.
Defined.

(** ** Which exceptions can be raised *)

Lemma bind_only_value_error {A B : Type} (m : exc A) (k : A -> exc B) :
  raises_only_value_error m -> (forall a, raises_only_value_error (k a)) ->
  raises_only_value_error (bind m k).
Proof.
  intros Hm Hk e. destruct m as [a|e']; simpl; [apply Hk|].
  intros [= <-]. now apply Hm.
Qed.

Lemma Ret_only_value_error {A : Type} (a : A) : raises_only_value_error (Ret a).
Proof. intros e H. discriminate. Qed.

Lemma py_int_only_value_error s : raises_only_value_error (py_int s).
Proof.
  intros e. unfold py_int.
  destruct (match rstrip_by is_int_space (lstrip_by is_int_space s) with
            | String "-" r => (true, r)
            | String "+" r => (false, r)
            | _ => (false, rstrip_by is_int_space (lstrip_by is_int_space s))
            end) as [neg body].
  destruct (int_unsigned body); [|intros H; congruence].
  destruct (int_max_str_digits <? count_digits body); intros H;
    [congruence|discriminate].
Qed.

Lemma ip_to_int_only_value_error ip : raises_only_value_error (ip_to_int ip).
Proof.
  unfold ip_to_int. destruct (negb _); [intros e H; congruence|].
  repeat (apply bind_only_value_error; [apply py_int_only_value_error|intros ?]).
  apply Ret_only_value_error.
Qed.

Lemma mapM_only_value_error {A B : Type} (f : A -> exc B) l :
  (forall x, raises_only_value_error (f x)) ->
  raises_only_value_error (mapM f l).
Proof.
  intros Hf. induction l as [|x xs IH]; simpl; [apply Ret_only_value_error|].
  apply bind_only_value_error; [apply Hf|intros y].
  apply bind_only_value_error; [apply IH|intros ys]. apply Ret_only_value_error.
Qed.

Lemma foldM_only_value_error {A S : Type} (body : S -> A -> exc S) l :
  (forall st x, raises_only_value_error (body st x)) ->
  forall st, raises_only_value_error (foldM body l st).
Proof.
  intros Hb. induction l as [|x xs IH]; intros st; simpl;
    [apply Ret_only_value_error|].
  apply bind_only_value_error; [apply Hb|apply IH].
Qed.

Lemma generate_ip_range_only_value_error s e :
  raises_only_value_error (generate_ip_range s e).
Proof.
  unfold generate_ip_range.
  repeat (apply bind_only_value_error; [apply ip_to_int_only_value_error|intros ?]).
  apply Ret_only_value_error.
Qed.

Lemma emit_segment_only_value_error res s e :
  raises_only_value_error (emit_segment res s e).
Proof.
  unfold emit_segment. destruct (String.eqb s e); [apply Ret_only_value_error|].
  apply bind_only_value_error; [apply generate_ip_range_only_value_error|intros ?].
  apply Ret_only_value_error.
Qed.

Lemma loop_body_only_value_error st c : raises_only_value_error (loop_body st c).
Proof.
  unfold loop_body.
  apply bind_only_value_error; [apply ip_to_int_only_value_error|intros ci].
  destruct (extends _ _ _ _); [apply Ret_only_value_error|].
  apply bind_only_value_error; [apply emit_segment_only_value_error|intros ?].
  apply Ret_only_value_error.
Qed.

Lemma process_ips_only_value_error l : raises_only_value_error (process_ips l).
Proof.
  destruct l as [|a rest]; [apply Ret_only_value_error|]. unfold process_ips.
  apply bind_only_value_error; [apply ip_to_int_only_value_error|intros ia].
  apply bind_only_value_error;
    [apply foldM_only_value_error, loop_body_only_value_error|intros st].
  apply emit_segment_only_value_error.
Qed.

Lemma sort_ips_only_value_error l : raises_only_value_error (sort_ips l).
Proof.
  unfold sort_ips.
  apply bind_only_value_error;
    [apply mapM_only_value_error, ip_to_int_only_value_error|intros ?].
  apply Ret_only_value_error.
Qed.

Lemma foldM_loop_convertible rest :
  forall st st', foldM loop_body rest st = Ret st' -> convertible rest.
Proof.
  induction rest as [|c rest IH]; intros st st' H; [constructor|].
  cbn [foldM] in H. inv_bind H. constructor; [|now apply (IH _ _ H)].
  unfold loop_body in Hv. inv_bind Hv. now exists v0.
Qed.

Lemma process_ips_Ret_convertible l out : process_ips l = Ret out -> convertible l.
Proof.
  destruct l as [|a rest]; intros H; [constructor|].
  unfold process_ips in H. inv_bind H. inv_bind H.
  constructor; [now exists v|]. now apply (foldM_loop_convertible _ _ _ Hv0).
Qed.

Lemma sort_ips_Ret_convertible l out : sort_ips l = Ret out -> convertible l.
Proof.
  unfold sort_ips. intros H. inv_bind H. clear H.
  apply mapM_Forall2 in Hv. induction Hv as [|ip n l ns Hn _ IH]; constructor;
    [now exists n|assumption].
Qed.

(** X3. [sort_ips] returns a list exactly when [ip_to_int] converts
    every address of its input, and the list is as long as the input;
    otherwise it raises [ValueError], and never anything else.  The empty
    list is sorted to the empty list. *)
Theorem sort_ips_returns_iff :
  sort_ips [] = Ret [] /\
  forall l,
    (convertible l /\
     exists out, sort_ips l = Ret out /\ List.length out = List.length l) \/
    (~ convertible l /\ sort_ips l = Raise ValueError).
Proof.
  split; [reflexivity|]. intros l.
  destruct (sort_ips l) as [out|e] eqn:E.
  - left. pose proof (sort_ips_Ret_convertible _ _ E) as Hc.
    split; [assumption|]. exists out. split; [reflexivity|].
    rewrite (sort_ips_ints _ _ (items_ints _ Hc)) in E. injection E as <-.
    rewrite length_map, <- (Permutation_length (list_sort_perm _)).
    unfold items. now rewrite !length_map.
  - right. rewrite (sort_ips_only_value_error _ _ E). split; [|reflexivity].
    intros Hc. rewrite (sort_ips_ints _ _ (items_ints _ Hc)) in E. discriminate.
Qed.

(** X4. [process_ips] returns a list exactly when [ip_to_int] converts
    every address of its input; otherwise it raises [ValueError], and
    never anything else.  The empty list gives the empty list. *)
Theorem process_ips_returns_iff :
  process_ips [] = Ret [] /\
  forall l,
    (convertible l /\ exists out, process_ips l = Ret out) \/
    (~ convertible l /\ process_ips l = Raise ValueError).
Proof.
  split; [reflexivity|]. intros l.
  destruct (process_ips l) as [out|e] eqn:E.
  - left. split; [now apply (process_ips_Ret_convertible _ out)|now exists out].
  - right. rewrite (process_ips_only_value_error _ _ E). split; [|reflexivity].
    intros Hc. destruct (process_ips_total _ Hc) as [out Ho]. congruence.
Qed.

(** ** [generate_ip_range] *)

Lemma py_range_length lo hi : List.length (py_range lo hi) = Z.to_nat (hi - lo).
Proof. unfold py_range. now rewrite length_map, length_seq. Qed.

Lemma py_range_nth lo hi k :
  0 <= k < hi - lo -> nth (Z.to_nat k) (py_range lo hi) 0 = lo + k.
Proof.
  intros Hk. unfold py_range.
  pose (f := fun j => lo + Z.of_nat j). fold f.
  rewrite (nth_indep _ 0 (f 0%nat)) by (rewrite length_map, length_seq; lia).
  rewrite map_nth, seq_nth by lia. unfold f. lia.
Qed.

(** X5. When both ends convert, to [si] and [ei], [generate_ip_range]
    returns [max 0 (ei - si + 1)] addresses, the [k]-th being
    [int_to_ip (si + k)]: the range is inclusive at both ends, and it is
    empty, without an error, when the end lies below the start.  When an
    end does not convert it raises [ValueError]. *)
Theorem generate_ip_range_spec :
  (forall s e si ei,
     ip_to_int s = Ret si -> ip_to_int e = Ret ei ->
     exists out,
       generate_ip_range s e = Ret out /\
       List.length out = Z.to_nat (ei - si + 1) /\
       (ei < si -> out = []) /\
       (forall k, 0 <= k <= ei - si ->
                  nth (Z.to_nat k) out "" = int_to_ip (si + k))) /\
  (forall s e, ~ convertible [s; e] -> generate_ip_range s e = Raise ValueError).
Proof.
  split.
  - intros s e si ei Hs He. exists (map int_to_ip (py_range si (ei + 1))).
    unfold generate_ip_range. rewrite Hs, He, !bind_Ret.
    split; [reflexivity|]. split; [|split].
    + rewrite length_map, py_range_length. f_equal. lia.
    + intros Hlt. now rewrite py_range_nil by lia.
    + intros k Hk.
      rewrite (nth_indep _ "" (int_to_ip 0))
        by (rewrite length_map, py_range_length; lia).
      rewrite map_nth. f_equal. apply py_range_nth. lia.
  - intros s e Hn. destruct (generate_ip_range s e) as [out|x] eqn:E.
    + exfalso. apply Hn. unfold generate_ip_range in E.
      inv_bind E. inv_bind E.
      constructor; [now exists v|]. constructor; [now exists v0|constructor].
    + now rewrite (generate_ip_range_only_value_error _ _ _ E).
Qed.

Lemma generate_ip_range_spec_witness :
  exists out,
    generate_ip_range "10.0.0.254" "10.0.1.1" = Ret out /\
    List.length out = Z.to_nat (167772417 - 167772414 + 1) /\
    (167772417 < 167772414 -> out = []) /\
    (forall k, 0 <= k <= 167772417 - 167772414 ->
               nth (Z.to_nat k) out "" = int_to_ip (167772414 + k)).
Proof.
  apply (proj1 generate_ip_range_spec "10.0.0.254" "10.0.1.1" 167772414 167772417);
    vm_compute; reflexivity.
Defined.

(** ** The sorter keeps every value *)

(** X6. On valid addresses [sort_ips] returns as many addresses as it
    was given, and their values are the values of the input rearranged in
    ascending order: no value is lost or invented and duplicates stay. *)
Theorem sort_ips_permutation :
  forall l ns,
    valid_list l -> ints_of l ns ->
    exists out ms,
      sort_ips l = Ret out /\ ints_of out ms /\
      Permutation ns ms /\ sorted ms /\
      List.length out = List.length l.
Proof.
  intros l ns Hv Hns.
  destruct (sort_ips_valid _ Hv) as (ns' & Hns' & Hs & Hout).
  assert (ns' = ns) as -> by (apply mapM_Forall2 in Hns, Hns'; congruence).
  exists (map int_to_ip (list_sort ns)), (list_sort ns).
  repeat split; try assumption.
  - apply list_sort_perm.
  - apply list_sort_sorted.
  - rewrite length_map, <- (Permutation_length (list_sort_perm ns)).
    symmetry. exact (Forall2_length Hns).
Qed.

Lemma sort_ips_permutation_witness :
  exists out ms,
    sort_ips ["10.0.0.9"; "9.0.0.1"; "10.0.0.9"] = Ret out /\ ints_of out ms /\
    Permutation [167772169; 150994945; 167772169] ms /\ sorted ms /\
    List.length out = List.length ["10.0.0.9"; "9.0.0.1"; "10.0.0.9"].
Proof.
  apply (sort_ips_permutation ["10.0.0.9"; "9.0.0.1"; "10.0.0.9"]
           [167772169; 150994945; 167772169]); repeat constructor.
Defined.

(** ** How much the range filler writes *)

Lemma segment_out_length start si prev pi :
  ip_to_int start = Ret si -> ip_to_int prev = Ret pi ->
  (start = prev /\ si = pi \/ si < pi) ->
  Z.of_nat (List.length (segment_out start si prev pi)) = pi - si + 1.
Proof.
  intros Hs Hp [[-> ->]|Hlt].
  - rewrite segment_out_single. simpl. lia.
  - rewrite (segment_out_range _ _ _ _ Hs Hp Hlt).
    rewrite length_map, py_range_length. lia.
Qed.

Lemma fill_length rest :
  forall start si prev pi,
    Forall item_ok rest ->
    ip_to_int start = Ret si -> ip_to_int prev = Ret pi ->
    (start = prev /\ si = pi \/ si < pi) ->
    let n := Z.of_nat (List.length (fill start si prev pi rest)) in
    let r := Z.of_nat (List.length rest) in
    pi - si + 1 + r <= n <= pi - si + 1 + 6 * r.
Proof.
  induction rest as [|[c ci] rest IH]; intros start si prev pi Hok Hs Hp J.
  - cbn [fill List.length]. rewrite (segment_out_length _ _ _ _ Hs Hp J). lia.
  - inversion Hok as [|? ? Hc Hok']; subst. unfold item_ok in Hc. cbn [fst snd] in Hc.
    cbn [fill]. destruct (extends prev pi c ci) eqn:Hx.
    + apply extends_spec in Hx. destruct Hx as [_ Hd].
      assert (J' : start = c /\ si = ci \/ si < ci) by (right; destruct J as [[_ ->]|]; lia).
      specialize (IH start si c ci Hok' Hs Hc J'). cbn zeta in IH |- *.
      rewrite length_cons. lia.
    + assert (J' : c = c /\ ci = ci \/ ci < ci) by (left; auto).
      specialize (IH c ci c ci Hok' Hc Hc J'). cbn zeta in IH |- *.
      rewrite length_app, Nat2Z.inj_add, (segment_out_length _ _ _ _ Hs Hp J).
      rewrite length_cons. lia.
Qed.

(** X7. On a non-empty input of [n] addresses that convert,
    [process_ips] returns between [n] and [6 n - 5] addresses: it never
    drops an entry, and each address after the first adds at most six. *)
Theorem process_ips_length :
  forall l out,
    l <> [] -> process_ips l = Ret out ->
    (List.length l <= List.length out <= 6 * List.length l - 5)%nat.
Proof.
  intros l out Hne H. pose proof (process_ips_Ret_convertible _ _ H) as Hc.
  destruct l as [|a rest]; [congruence|].
  rewrite (process_ips_items _ _ Hc) in H. injection H as <-.
  pose proof (items_ok _ Hc) as Hok. cbn [items map] in Hok. fold (items rest) in Hok.
  inversion Hok as [|? ? Ha Hok']; subst. unfold item_ok in Ha. cbn [fst snd] in Ha.
  pose proof (fill_length (items rest) a (value a) a (value a) Hok' Ha Ha
                (or_introl (conj eq_refl eq_refl))) as Hl.
  cbn zeta in Hl.
  assert (Hr : List.length (items rest) = List.length rest)
    by (unfold items; apply length_map).
  rewrite Hr in Hl. rewrite length_cons. lia.
Qed.

Lemma process_ips_length_witness :
  (List.length ["10.0.0.1"; "10.0.0.7"; "10.0.0.13"]
   <= List.length ["10.0.0.1"; "10.0.0.2"; "10.0.0.3"; "10.0.0.4"; "10.0.0.5";
                   "10.0.0.6"; "10.0.0.7"; "10.0.0.8"; "10.0.0.9"; "10.0.0.10";
                   "10.0.0.11"; "10.0.0.12"; "10.0.0.13"]
   <= 6 * List.length ["10.0.0.1"; "10.0.0.7"; "10.0.0.13"] - 5)%nat.
Proof.
  apply (process_ips_length ["10.0.0.1"; "10.0.0.7"; "10.0.0.13"]).
  - discriminate.
  - vm_compute. reflexivity.
Defined.

(** ** No input address is lost *)

Lemma has_value_app_l o1 o2 x : has_value o1 x -> has_value (o1 ++ o2) x.
Proof. intros (t & Ht & Hx). exists t. split; [apply in_or_app; now left|assumption]. Qed.

Lemma has_value_app_r o1 o2 x : has_value o2 x -> has_value (o1 ++ o2) x.
Proof. intros (t & Ht & Hx). exists t. split; [apply in_or_app; now right|assumption]. Qed.

Lemma segment_has_value start si prev pi x :
  ip_to_int start = Ret si -> ip_to_int prev = Ret pi ->
  (start = prev /\ si = pi \/ si < pi) ->
  0 <= si -> pi < 2 ^ 32 -> si <= x <= pi ->
  has_value (segment_out start si prev pi) x.
Proof.
  intros Hs Hp [[-> ->]|Hlt] H0 H32 Hx.
  - rewrite segment_out_single. exists prev. split; [now left|].
    now replace x with pi by lia.
  - rewrite (segment_out_range _ _ _ _ Hs Hp Hlt). exists (int_to_ip x). split.
    + apply in_map, py_range_In. lia.
    + apply int_to_ip_then_ip_to_int. lia.
Qed.

Lemma fill_open_values rest :
  forall start si prev pi,
    Forall item_ok rest -> Forall (fun it => snd it < 2 ^ 32) rest ->
    ip_to_int start = Ret si -> ip_to_int prev = Ret pi ->
    (start = prev /\ si = pi \/ si < pi) ->
    0 <= si -> pi < 2 ^ 32 ->
    forall x, si <= x <= pi -> has_value (fill start si prev pi rest) x.
Proof.
  induction rest as [|[c ci] rest IH];
    intros start si prev pi Hok Hb Hs Hp J H0 H32 x Hx.
  - cbn [fill]. now apply segment_has_value.
  - inversion Hok as [|? ? Hc Hok']; subst. unfold item_ok in Hc. cbn [fst snd] in Hc.
    inversion Hb as [|? ? Hci Hb']; subst. cbn [snd] in Hci.
    cbn [fill]. destruct (extends prev pi c ci) eqn:Hx'.
    + apply extends_spec in Hx'. destruct Hx' as [_ Hd].
      apply IH; auto; [right; destruct J as [[_ ->]|]; lia | lia].
    + apply has_value_app_l. now apply segment_has_value.
Qed.

Lemma fill_rest_values rest :
  forall start si prev pi,
    Forall item_ok rest -> Forall (fun it => 0 <= snd it < 2 ^ 32) rest ->
    ip_to_int start = Ret si -> ip_to_int prev = Ret pi ->
    (start = prev /\ si = pi \/ si < pi) ->
    0 <= si -> pi < 2 ^ 32 ->
    Forall (fun it => has_value (fill start si prev pi rest) (snd it)) rest.
Proof.
  induction rest as [|[c ci] rest IH];
    intros start si prev pi Hok Hb Hs Hp J H0 H32; [constructor|].
  inversion Hok as [|? ? Hc Hok']; subst. unfold item_ok in Hc. cbn [fst snd] in Hc.
  inversion Hb as [|? ? Hci Hb']; subst. cbn [snd] in Hci.
  assert (Hb2 : Forall (fun it : string * Z => snd it < 2 ^ 32) rest).
  { eapply Forall_impl; [|exact Hb']. intros it Hit. cbn beta in Hit. lia. }
  cbn [fill]. destruct (extends prev pi c ci) eqn:Hx.
  - apply extends_spec in Hx. destruct Hx as [_ Hd].
    assert (J' : start = c /\ si = ci \/ si < ci) by (right; destruct J as [[_ ->]|]; lia).
    constructor.
    + cbn [snd]. apply fill_open_values; auto; lia.
    + apply IH; auto; lia.
  - assert (J' : c = c /\ ci = ci \/ ci < ci) by (left; auto).
    constructor.
    + cbn [snd]. apply has_value_app_r. apply fill_open_values; auto; lia.
    + eapply Forall_impl; [|apply (IH c ci c ci); auto; lia].
      intros it Hit. now apply has_value_app_r.
Qed.

(** X8. On valid addresses, in any order, [process_ips] loses none:
    for every address of the input, the output holds an address of the
    same value. *)
Theorem process_ips_keeps_values :
  forall l,
    valid_list l ->
    exists out,
      process_ips l = Ret out /\
      forall s n, In s l -> ip_to_int s = Ret n -> has_value out n.
Proof.
  intros l Hv. pose proof (valid_convertible _ Hv) as Hc.
  destruct l as [|a rest]; [exists []; split; [reflexivity|intros ? ? []]|].
  exists (fill a (value a) a (value a) (items rest)).
  split; [now apply process_ips_items|].
  pose proof (items_ok _ Hc) as Hok. cbn [items map] in Hok. fold (items rest) in Hok.
  inversion Hok as [|? ? Ha Hok']; subst. unfold item_ok in Ha. cbn [fst snd] in Ha.
  assert (Hb : Forall (fun it => 0 <= snd it < 2 ^ 32) (items (a :: rest))).
  { unfold items. apply Forall_map. eapply Forall_impl; [|exact Hv].
    intros ip Hip. cbn [snd]. destruct (valid_ip_to_int _ Hip) as (n & Hn & Hr).
    now rewrite (value_eq _ _ Hn). }
  cbn [items map] in Hb. fold (items rest) in Hb.
  inversion Hb as [|? ? Ba Hb']; subst. cbn [snd] in Ba.
  assert (Hb2 : Forall (fun it : string * Z => snd it < 2 ^ 32) (items rest)).
  { eapply Forall_impl; [|exact Hb']. intros it Hit. cbn beta in Hit. lia. }
  intros s n [<-|Hin] Hn.
  - rewrite (value_eq _ _ Hn) in *.
    apply fill_open_values; auto; try lia.
  - pose proof (fill_rest_values (items rest) a (value a) a (value a)
                  Hok' Hb' Ha Ha (or_introl (conj eq_refl eq_refl))
                  (proj1 Ba) (proj2 Ba)) as Hall.
    rewrite Forall_forall in Hall.
    specialize (Hall (s, value s)). cbn [snd] in Hall.
    rewrite (value_eq _ _ Hn) in Hall. apply Hall.
    unfold items. apply in_map_iff. exists s. now rewrite (value_eq _ _ Hn).
Qed.

Lemma process_ips_keeps_values_witness :
  exists out,
    process_ips ["010.0.0.3"; "10.0.0.5"; "10.0.0.1"] = Ret out /\
    forall s n, In s ["010.0.0.3"; "10.0.0.5"; "10.0.0.1"] ->
                ip_to_int s = Ret n -> has_value out n.
Proof.
  apply (process_ips_keeps_values ["010.0.0.3"; "10.0.0.5"; "10.0.0.1"]).
  repeat constructor.
Defined.

(** ** Nothing is written but inputs and fillers of a gap *)

Lemma adjacent_chain {A : Type} (l : list A) :
  forall pre, Sorted (adjacent (pre ++ l)) l.
Proof.
  induction l as [|x l IH]; intros pre; [constructor|].
  constructor.
  - specialize (IH (pre ++ [x])). now rewrite <- app_assoc in IH.
  - destruct l as [|y l]; constructor. now exists pre, l.
Qed.

Section Origin.

Variable inp : list (string * Z).

Lemma segment_origin start si prev pi :
  ip_to_int start = Ret si -> ip_to_int prev = Ret pi ->
  In (start, si) inp ->
  (start = prev /\ si = pi \/
   si < pi /\ forall x, si <= x <= pi -> gap_value inp x) ->
  forall t, In t (segment_out start si prev pi) ->
  (exists n, In (t, n) inp) \/ exists x, gap_value inp x /\ t = int_to_ip x.
Proof.
  intros Hs Hp Hin [[-> ->]|[Hlt Hg]] t Ht.
  - rewrite segment_out_single in Ht. destruct Ht as [<-|[]]. left. now exists pi.
  - rewrite (segment_out_range _ _ _ _ Hs Hp Hlt) in Ht.
    apply in_map_iff in Ht. destruct Ht as (x & <- & Hx).
    apply py_range_In in Hx. right. exists x. split; [apply Hg; lia|reflexivity].
Qed.

Lemma fill_origin rest :
  forall start si prev pi,
    Sorted (adjacent inp) ((prev, pi) :: rest) ->
    Forall item_ok rest -> Forall (fun it => In it inp) rest ->
    ip_to_int start = Ret si -> ip_to_int prev = Ret pi ->
    In (start, si) inp ->
    (start = prev /\ si = pi \/
     si < pi /\ forall x, si <= x <= pi -> gap_value inp x) ->
    forall t, In t (fill start si prev pi rest) ->
    (exists n, In (t, n) inp) \/ exists x, gap_value inp x /\ t = int_to_ip x.
Proof.
  induction rest as [|[c ci] rest IH];
    intros start si prev pi Hch Hok Hall Hs Hp Hin J t Ht.
  - cbn [fill] in Ht. now apply (segment_origin start si prev pi).
  - inversion Hok as [|? ? Hc Hok']; subst. unfold item_ok in Hc. cbn [fst snd] in Hc.
    inversion Hall as [|? ? Ic Hall']; subst.
    inversion Hch as [|? ? Hch' Hhd]; subst.
    inversion Hhd as [|? ? Hadj]; subst.
    cbn [fill] in Ht. destruct (extends prev pi c ci) eqn:Hx.
    + apply (IH start si c ci); auto.
      pose proof (proj1 (extends_spec _ _ _ _) Hx) as [_ Hd].
      right. split; [destruct J as [[_ ->]|[? _]]; lia|].
      intros x Hxr. destruct (Z_le_gt_dec x pi) as [Hle|Hgt].
      * destruct J as [[-> ->]|[_ Hg]]; [|apply Hg; lia].
        exists prev, pi, c, ci. repeat split; auto; lia.
      * exists prev, pi, c, ci. repeat split; auto; lia.
    + apply in_app_or in Ht. destruct Ht as [Ht|Ht].
      * now apply (segment_origin start si prev pi).
      * apply (IH c ci c ci); auto.
  Qed.

End Origin.

Lemma map_fst_items l : map fst (items l) = l.
Proof. unfold items. rewrite map_map. cbn [fst]. apply map_id. Qed.

(** X9. Every address [process_ips] writes is an address of the input
    or [int_to_ip x] for a value [x] between two neighbours of the input
    that have the same prefix and differ by at most 6: nothing is written
    outside the gaps the loop decided to fill. *)
Theorem process_ips_origin :
  forall l out,
    process_ips l = Ret out ->
    forall t, In t out ->
    In t l \/
    exists a b ia ib x,
      adjacent l a b /\ ip_to_int a = Ret ia /\ ip_to_int b = Ret ib /\
      network b = network a /\ 0 < ib - ia <= 6 /\
      ia <= x <= ib /\ t = int_to_ip x.
Proof.
  intros l out H t Ht. pose proof (process_ips_Ret_convertible _ _ H) as Hc.
  destruct l as [|a rest]; [injection H as <-; destruct Ht|].
  rewrite (process_ips_items _ _ Hc) in H. injection H as <-.
  pose proof (items_ok _ Hc) as Hok.
  assert (Hi : forall s n, In (s, n) (items (a :: rest)) ->
                 In s (a :: rest) /\ ip_to_int s = Ret n).
  { intros s n Hin. rewrite Forall_forall in Hok. pose proof (Hok _ Hin) as Hs.
    apply in_items in Hin. destruct Hin as [Hin _]. auto. }
  cbn [items map] in Hok. fold (items rest) in Hok.
  inversion Hok as [|? ? Ha Hok']; subst. unfold item_ok in Ha. cbn [fst snd] in Ha.
  destruct (fill_origin (items (a :: rest)) (items rest) a (value a) a (value a))
    with (t := t) as [(n & Hn)|(x & Hg & ->)]; auto.
  - exact (adjacent_chain (items (a :: rest)) []).
  - apply Forall_forall. intros it Hit. now right.
  - now left.
  - left. now apply (Hi t n).
  - right. destruct Hg as (p & ip & q & iq & (pre & post & Hadj) & Hx & Hr).
    apply extends_spec in Hx. destruct Hx as [Hn Hd].
    assert (Hp : In (p, ip) (items (a :: rest)))
      by (rewrite Hadj; apply in_or_app; right; now left).
    assert (Hq : In (q, iq) (items (a :: rest)))
      by (rewrite Hadj; apply in_or_app; right; right; now left).
    exists p, q, ip, iq, x. repeat split; try apply Hi; auto; try lia.
    exists (map fst pre), (map fst post).
    rewrite <- (map_fst_items (a :: rest)), Hadj, map_app. reflexivity.
Qed.

Lemma process_ips_origin_witness :
  In "10.0.0.2" ["10.0.0.1"; "10.0.0.3"; "10.0.0.12"] \/
  exists a b ia ib x,
    adjacent ["10.0.0.1"; "10.0.0.3"; "10.0.0.12"] a b /\
    ip_to_int a = Ret ia /\ ip_to_int b = Ret ib /\
    network b = network a /\ 0 < ib - ia <= 6 /\
    ia <= x <= ib /\ "10.0.0.2" = int_to_ip x.
Proof.
  apply (process_ips_origin ["10.0.0.1"; "10.0.0.3"; "10.0.0.12"]
           ["10.0.0.1"; "10.0.0.2"; "10.0.0.3"; "10.0.0.12"]).
  - vm_compute. reflexivity.
  - right. left. reflexivity.
Defined.

(** ** What the reader returns *)

Lemma read_lines_Ret lines :
  forall st st', foldM read_line lines st = Ret st' -> test_returns lines.
Proof.
  induction lines as [|line lines IH]; intros st st' H; [constructor|].
  cbn [foldM] in H. inv_bind H. constructor; [|now apply (IH _ _ H)].
  unfold read_line in Hv. destruct st as [ips log].
  destruct (strip line) as [|c r]; [now exists false|].
  inv_bind Hv. now exists v0.
Qed.

Lemma filter_negb_length {A : Type} (f : A -> bool) l :
  (List.length (filter f l) + List.length (filter (fun x => negb (f x)) l)
   = List.length l)%nat.
Proof.
  induction l as [|x l IH]; simpl; [reflexivity|].
  destruct (f x); simpl; lia.
Qed.

Lemma accepted_valid ip : accepted ip = true -> valid_ip ip = Ret true.
Proof.
  unfold accepted. destruct (valid_ip ip) as [b|e]; [now intros ->|discriminate].
Qed.

Lemma kept_valid lines : valid_list (kept lines).
Proof.
  apply Forall_forall. intros ip Hin. unfold kept in Hin.
  apply filter_In in Hin. now apply accepted_valid.
Qed.

Lemma reader_cases lines :
  (test_returns lines /\
   read_ip_file (Readable lines) = Ret (kept lines, warned lines)) \/
  (~ test_returns lines /\
   read_ip_file (Readable lines) = Raise (SystemExit 1)).
Proof.
  unfold read_ip_file. destruct (foldM read_line lines ([], [])) as [st|e] eqn:E.
  - left. pose proof (read_lines_Ret _ _ _ E) as Ht. split; [assumption|].
    rewrite (read_lines_filter _ Ht) in E. now rewrite <- E.
  - right. split; [|reflexivity]. intros Ht.
    rewrite (read_lines_filter _ Ht) in E. discriminate.
Qed.

Lemma read_ip_file_unreadable read :
  read_ip_file (Unreadable read) = Raise (SystemExit 1).
Proof. cbn [read_ip_file]. now destruct (foldM read_line read ([], [])). Qed.

Lemma read_ip_file_Ret file st :
  read_ip_file file = Ret st ->
  exists lines, file = Readable lines /\ st = (kept lines, warned lines).
Proof.
  destruct file as [|read|lines]; cbn [read_ip_file].
  - discriminate.
  - destruct (foldM read_line read ([], [])); discriminate.
  - intros H. exists lines. split; [reflexivity|].
    destruct (reader_cases lines) as [[_ Hr]|[_ Hr]]; unfold read_ip_file in Hr;
      rewrite Hr in H; [now injection H|discriminate].
Qed.

(** X10. Whatever the file, the reader either returns or exits with
    status 1, and never ends otherwise.  It exits when the file is
    missing and when opening or reading it fails.  On a file read to its
    end it either returns exactly the stripped non-blank lines on which
    the test holds, in order, having warned once about each other
    non-blank line and never about a blank one, or, when the test raises
    on some line, exits with status 1.  Every address it returns passes
    the test. *)
Theorem read_ip_file_returns :
  (forall file,
     (exists st, read_ip_file file = Ret st) \/
     read_ip_file file = Raise (SystemExit 1)) /\
  read_ip_file Missing = Raise (SystemExit 1) /\
  (forall read, read_ip_file (Unreadable read) = Raise (SystemExit 1)) /\
  forall lines,
    ((test_returns lines /\
      read_ip_file (Readable lines) = Ret (kept lines, warned lines)) \/
     (~ test_returns lines /\
      read_ip_file (Readable lines) = Raise (SystemExit 1))) /\
    valid_list (kept lines) /\
    (List.length (kept lines) + List.length (warned lines)
     = List.length (filter non_blank (map strip lines)))%nat.
Proof.
  split; [|split; [reflexivity|split; [exact read_ip_file_unreadable|]]].
  - intros [|read|lines]; [now right|right; apply read_ip_file_unreadable|].
    destruct (reader_cases lines) as [[_ Hr]|[_ Hr]]; rewrite Hr; eauto.
  - intros lines. split; [|split].
    + apply reader_cases.
    + apply kept_valid.
    + unfold kept, warned. rewrite length_map. apply filter_negb_length.
Qed.

(** ** The whole program *)

Lemma is_digit_char_not_is_space c : is_digit_char c = true -> is_space c = false.
Proof.
  destruct c as [[|] [|] [|] [|] [|] [|] [|] [|]]; vm_compute;
    intros H; try discriminate; reflexivity.
Qed.

Lemma all_chars_app (P : ascii -> bool) s1 s2 :
  all_chars P (s1 ++ s2)%string = all_chars P s1 && all_chars P s2.
Proof.
  induction s1 as [|c s1 IH]; simpl; [reflexivity|].
  now rewrite IH, andb_assoc.
Qed.

Lemma isdigit_printable p : isdigit p = true -> all_chars printable p = true.
Proof.
  intros H. assert (Ha : all_chars is_digit_char p = true)
    by (destruct p; [discriminate|exact H]).
  clear H. induction p as [|c r IH]; simpl in *; [reflexivity|].
  apply andb_true_iff in Ha. destruct Ha as [Hc Hr].
  unfold printable at 1. now rewrite (is_digit_char_not_is_space _ Hc), IH.
Qed.

Lemma valid_ip_printable ip :
  valid_ip ip = Ret true -> ip <> "" /\ all_chars printable ip = true.
Proof.
  intros H. split; [intros ->; discriminate|].
  destruct (valid_ip_inv _ H) as (p0 & p1 & p2 & p3 & Hs & H0 & H1 & H2 & H3).
  apply octet_ok_inv in H0, H1, H2, H3.
  destruct H0 as [D0 _], H1 as [D1 _], H2 as [D2 _], H3 as [D3 _].
  rewrite <- (join_split ip), Hs. cbn [join].
  rewrite !all_chars_app, (isdigit_printable _ D0), (isdigit_printable _ D1),
    (isdigit_printable _ D2), (isdigit_printable _ D3). reflexivity.
Qed.

Lemma rstrip_line_of s :
  all_chars printable s = true -> rstrip_by is_space (line_of s) = s.
Proof.
  unfold line_of. induction s as [|c r IH]; intros H; [reflexivity|].
  simpl in H. apply andb_true_iff in H. destruct H as [Hc Hr].
  unfold printable in Hc. apply negb_true_iff in Hc.
  change (rstrip_by is_space (String c r ++ newline)%string)
    with (match rstrip_by is_space (r ++ newline)%string with
          | EmptyString => if is_space c then EmptyString else String c EmptyString
          | r' => String c r'
          end).
  rewrite (IH Hr), Hc. now destruct r.
Qed.

Lemma strip_line_of ip : valid_ip ip = Ret true -> strip (line_of ip) = ip.
Proof.
  intros H. destruct (valid_ip_printable _ H) as [Hne Hp]. unfold strip.
  destruct ip as [|c r]; [congruence|].
  assert (Hc : is_space c = false).
  { simpl in Hp. apply andb_true_iff in Hp. destruct Hp as [Hc _].
    unfold printable in Hc. now apply negb_true_iff in Hc. }
  replace (lstrip_by is_space (line_of (String c r))) with (line_of (String c r))
    by (unfold line_of; cbn [append lstrip_by]; now rewrite Hc).
  now apply rstrip_line_of.
Qed.

Lemma filter_none {A : Type} (f : A -> bool) l :
  (forall x, In x l -> f x = false) -> filter f l = [].
Proof.
  induction l as [|x l IH]; intros H; simpl; [reflexivity|].
  rewrite (H x (or_introl eq_refl)). apply IH. intros y Hy. apply H. now right.
Qed.

(** Reading back what [write_output] wrote. *)
Lemma read_written result :
  valid_list result ->
  read_ip_file (Readable (map line_of result)) = Ret (result, []).
Proof.
  intros Hv. unfold valid_list in Hv. rewrite Forall_forall in Hv.
  assert (Hs : map strip (map line_of result) = result).
  { rewrite map_map. rewrite <- (map_id result) at 2. apply map_ext_in.
    intros ip Hin. now apply strip_line_of, Hv. }
  assert (Hn : filter non_blank result = result).
  { apply forallb_filter_id, forallb_forall. intros ip Hin.
    destruct (valid_ip_printable _ (Hv _ Hin)) as [Hne _].
    unfold non_blank. apply negb_true_iff. now apply String.eqb_neq. }
  assert (Ha : forall ip, In ip result -> accepted ip = true).
  { intros ip Hin. unfold accepted. now rewrite (Hv _ Hin). }
  unfold read_ip_file. rewrite read_lines_filter.
  - unfold kept, warned. rewrite Hs, Hn. cbn [app]. f_equal. f_equal.
    + apply forallb_filter_id, forallb_forall. exact Ha.
    + rewrite filter_none; [reflexivity|].
      intros ip Hin. now rewrite (Ha _ Hin).
  - apply Forall_forall. intros line Hin. apply in_map_iff in Hin.
    destruct Hin as (ip & <- & Hin). exists true.
    rewrite strip_line_of; now apply Hv.
Qed.

Lemma fill_members rest :
  forall start si prev pi t,
    In t (fill start si prev pi rest) ->
    t = start \/ In t (map fst rest) \/ exists x, t = int_to_ip x.
Proof.
  assert (Hseg : forall start si prev pi t,
             In t (segment_out start si prev pi) ->
             t = start \/ exists x, t = int_to_ip x).
  { intros start si prev pi t. unfold segment_out.
    destruct (String.eqb start prev); intros Ht.
    - destruct Ht as [<-|[]]. now left.
    - apply in_map_iff in Ht. destruct Ht as (x & <- & _). right. now exists x. }
  induction rest as [|[c ci] rest IH]; intros start si prev pi t Ht; cbn [fill] in Ht.
  - destruct (Hseg _ _ _ _ _ Ht) as [->|Hx]; auto.
  - cbn [map fst]. destruct (extends prev pi c ci).
    + destruct (IH _ _ _ _ _ Ht) as [->|[Hin|Hx]]; auto. right. left. now right.
    + apply in_app_or in Ht. destruct Ht as [Ht|Ht].
      * destruct (Hseg _ _ _ _ _ Ht) as [->|Hx]; auto.
      * destruct (IH _ _ _ _ _ Ht) as [->|[Hin|Hx]]; auto.
        -- right. left. now left.
        -- right. left. now right.
Qed.

Lemma process_ips_members l out t :
  process_ips l = Ret out -> In t out -> In t l \/ exists x, t = int_to_ip x.
Proof.
  intros H Ht. pose proof (process_ips_Ret_convertible _ _ H) as Hc.
  destruct l as [|a rest]; [injection H as <-; destruct Ht|].
  rewrite (process_ips_items _ _ Hc) in H. injection H as <-.
  destruct (fill_members _ _ _ _ _ _ Ht) as [->|[Hin|Hx]]; auto.
  - left. now left.
  - left. right. now rewrite map_fst_items in Hin.
Qed.

Lemma process_ips_not_nil l out : l <> [] -> process_ips l = Ret out -> out <> [].
Proof.
  intros Hne H. pose proof (process_ips_Ret_convertible _ _ H) as Hc.
  destruct l as [|a rest]; [congruence|].
  rewrite (process_ips_items _ _ Hc) in H. injection H as <-.
  pose proof (items_ok _ Hc) as Hok. cbn [items map] in Hok. fold (items rest) in Hok.
  inversion Hok as [|? ? Ha Hok']; subst. unfold item_ok in Ha. cbn [fst snd] in Ha.
  pose proof (fill_length (items rest) a (value a) a (value a) Hok' Ha Ha
                (or_introl (conj eq_refl eq_refl))) as Hl.
  cbn zeta in Hl. intros E. rewrite E in Hl. simpl in Hl. lia.
Qed.

(** Sorting and filling valid addresses: both steps return, and the
    result holds valid canonical addresses only. *)
Lemma pipeline_valid ips :
  valid_list ips ->
  exists sorted_ips result,
    sort_ips ips = Ret sorted_ips /\ process_ips sorted_ips = Ret result /\
    valid_list result /\ Forall (fun ip => canonical ip = true) result /\
    (ips <> [] -> result <> []).
Proof.
  intros Hv. destruct (sort_ips_valid _ Hv) as (ns & Hns & Hs & Hout).
  set (S := map int_to_ip (list_sort ns)) in *.
  assert (HS : forall t, In t S -> exists x, t = int_to_ip x).
  { intros t Ht. apply in_map_iff in Ht. destruct Ht as (x & <- & _). now exists x. }
  assert (Hc : convertible S).
  { apply Forall_forall. intros t Ht. destruct (HS _ Ht) as [x ->].
    exists (x mod 2 ^ 32). apply ip_to_int_int_to_ip. }
  destruct (process_ips_total _ Hc) as [R HR]. exists S, R.
  assert (HRm : forall t, In t R -> exists x, t = int_to_ip x).
  { intros t Ht. destruct (process_ips_members _ _ _ HR Ht) as [Hin|Hx]; auto. }
  split; [assumption|]. split; [assumption|]. split; [|split].
  - apply Forall_forall. intros t Ht. destruct (HRm _ Ht) as [x ->].
    apply valid_ip_int_to_ip.
  - apply Forall_forall. intros t Ht. destruct (HRm _ Ht) as [x ->].
    apply int_to_ip_canonical.
  - intros Hne. apply (process_ips_not_nil S); [|assumption].
    intros E. apply Hne. apply (f_equal (@List.length string)) in E.
    unfold S in E. rewrite length_map in E.
    rewrite <- (Permutation_length (list_sort_perm ns)) in E.
    rewrite <- (Forall2_length Hns) in E. now destruct ips.
Qed.

Lemma write_output_lines cw result output w :
  write_output cw result output = Ret w ->
  lines w = map line_of result /\ total w = Z.of_nat (List.length result).
Proof.
  unfold write_output. destruct output as [[|c p]|].
  - intros [= <-]. auto.
  - destruct (cw (String c p)); [|discriminate]. intros [= <-]. auto.
  - intros [= <-]. auto.
Qed.

(** X11. [main] never ends with a [ValueError]: it either exits with
    status 1 or writes a result.  It exits when the input file is
    missing, when the reader fails, when no line of the file is a valid
    address, or when the output file cannot be written; otherwise it
    writes, one per line, the addresses [process_ips] returns on the
    sorted valid lines, and reports their number. *)
Theorem main_outcome :
  forall can_write file output_file,
    match main can_write file output_file with
    | Ret w =>
        exists file_lines sorted_ips result,
          file = Readable file_lines /\
          read_ip_file file = Ret (kept file_lines, warned file_lines) /\
          kept file_lines <> [] /\
          sort_ips (kept file_lines) = Ret sorted_ips /\
          process_ips sorted_ips = Ret result /\
          lines w = map line_of result /\
          total w = Z.of_nat (List.length result)
    | Raise e =>
        e = SystemExit 1 /\
        (read_ip_file file = Raise (SystemExit 1) \/
         (exists log, read_ip_file file = Ret ([], log)) \/
         (exists c path, output_file = Some (String c path) /\
                         can_write (String c path) = false))
    end.
Proof.
  intros cw file output. unfold main.
  destruct file as [|read|flines]; [cbn; auto| |].
  { rewrite read_ip_file_unreadable. cbn; auto. }
  destruct (reader_cases flines) as [[Ht Hr]|[Ht Hr]];
    rewrite Hr; [|cbn; auto].
  rewrite bind_Ret. cbn [fst].
  destruct (pipeline_valid (kept flines) (kept_valid flines))
    as (S & R & HS & HR & _).
  destruct (kept flines) as [|ip ips] eqn:Ek.
  { split; [reflexivity|]. right. left. now exists (warned flines). }
  rewrite HS, bind_Ret, HR, bind_Ret.
  destruct (write_output cw R output) as [w|e] eqn:Ew.
  - destruct (write_output_lines _ _ _ _ Ew) as [Hl Hn].
    exists flines, S, R. repeat split; rewrite ?Ek; auto. discriminate.
  - unfold write_output in Ew. destruct output as [[|c p]|]; try discriminate.
    destruct (cw (String c p)) eqn:Ec; [discriminate|]. injection Ew as <-.
    split; [reflexivity|]. right. right. now exists c, p.
Qed.

(** ** The range filler on canonical addresses *)

Lemma network_int_to_ip x :
  network (int_to_ip x) =
  (py_str (Z.land (Z.shiftr x 24) 255) ++ "." ++
   py_str (Z.land (Z.shiftr x 16) 255) ++ "." ++
   py_str (Z.land (Z.shiftr x 8) 255))%string.
Proof. unfold network. rewrite split_int_to_ip. reflexivity. Qed.

Lemma py_str_byte_inj a b :
  0 <= a <= 255 -> 0 <= b <= 255 -> py_str a = py_str b -> a = b.
Proof.
  intros Ha Hb H. apply (f_equal py_int) in H.
  rewrite !py_int_py_str_byte in H by assumption. now injection H.
Qed.

Lemma network_int_to_ip_iff x y :
  in_range x -> in_range y ->
  (network (int_to_ip y) = network (int_to_ip x) <-> x / 256 = y / 256).
Proof.
  unfold in_range. change (2 ^ 32) with 4294967296. intros Hx Hy.
  rewrite !network_int_to_ip. split.
  - intros H. apply (f_equal (split ".")) in H.
    change (append ".") with (String ".") in H.
    rewrite !split_app_sep in H by (apply py_str_byte_not_dot, land_255_range).
    rewrite !split_no_sep in H by (apply py_str_byte_not_dot, land_255_range).
    pose proof (f_equal (fun l => nth 0 l "") H) as H3.
    pose proof (f_equal (fun l => nth 1 l "") H) as H2.
    pose proof (f_equal (fun l => nth 2 l "") H) as H1.
    cbn beta in H3, H2, H1. cbn [nth] in H3, H2, H1. clear H.
    apply py_str_byte_inj in H3, H2, H1; try apply land_255_range.
    rewrite !land_255, !Z.shiftr_div_pow2 in H3, H2, H1 by lia.
    change (2 ^ 24) with 16777216 in H3. change (2 ^ 16) with 65536 in H2.
    change (2 ^ 8) with 256 in H1.
    Z.div_mod_to_equations. lia.
  - intros H.
    assert (E : forall k, k = 8 \/ k = 16 \/ k = 24 ->
                Z.land (Z.shiftr y k) 255 = Z.land (Z.shiftr x k) 255).
    { intros k Hk. rewrite !land_255, !Z.shiftr_div_pow2 by lia.
      destruct Hk as [->|[->| ->]];
        [change (2 ^ 8) with 256 | change (2 ^ 16) with 65536
         | change (2 ^ 24) with 16777216];
        Z.div_mod_to_equations; lia. }
    now rewrite (E 24), (E 16), (E 8) by tauto.
Qed.

Lemma extends_canonical p c :
  in_range p -> in_range c ->
  extends (int_to_ip p) p (int_to_ip c) c = extends_value p c.
Proof.
  intros Hp Hc. unfold extends, extends_value. f_equal.
  destruct (Z.eqb_spec (p / 256) (c / 256)) as [E|E].
  - apply String.eqb_eq. now apply network_int_to_ip_iff.
  - apply String.eqb_neq. intros H. apply E. now apply network_int_to_ip_iff in H.
Qed.

Lemma segment_out_canonical s p :
  in_range s -> in_range p -> s <= p ->
  segment_out (int_to_ip s) s (int_to_ip p) p = map int_to_ip (py_range s (p + 1)).
Proof.
  intros Hs Hp Hle. destruct (Z.eq_dec s p) as [->|Hne].
  - rewrite segment_out_single, py_range_cons, py_range_nil by lia. reflexivity.
  - apply segment_out_range; try (apply int_to_ip_then_ip_to_int; assumption). lia.
Qed.

Lemma fill_canonical rest :
  forall s p,
    Forall in_range rest -> in_range s -> in_range p -> s <= p ->
    fill (int_to_ip s) s (int_to_ip p) p (map (fun n => (int_to_ip n, n)) rest)
    = map int_to_ip (fill_values s p rest).
Proof.
  induction rest as [|c rest IH]; intros s p Hr Hs Hp Hle.
  - cbn [map fill fill_values]. now apply segment_out_canonical.
  - inversion Hr as [|? ? Hc Hr']; subst. cbn [map fill fill_values].
    rewrite (extends_canonical _ _ Hp Hc).
    destruct (extends_value p c) eqn:Hx.
    + apply IH; auto.
      unfold extends_value in Hx. apply andb_true_iff in Hx.
      destruct Hx as [_ Hx]. apply andb_true_iff in Hx. destruct Hx as [Hx _].
      apply Z.ltb_lt in Hx. lia.
    + rewrite map_app, (segment_out_canonical _ _ Hs Hp Hle). f_equal.
      apply IH; auto. lia.
Qed.

Lemma items_canonical ns :
  Forall in_range ns -> items (map int_to_ip ns) = map (fun n => (int_to_ip n, n)) ns.
Proof.
  induction 1 as [|n ns Hn _ IH]; [reflexivity|]. cbn [map items].
  fold (items (map int_to_ip ns)). rewrite IH. f_equal. f_equal.
  apply value_eq. now apply int_to_ip_then_ip_to_int.
Qed.

Lemma process_ips_canonical ns :
  Forall in_range ns ->
  process_ips (map int_to_ip ns) = Ret (map int_to_ip (fill_all ns)).
Proof.
  intros Hr. destruct ns as [|n ns]; [reflexivity|].
  inversion Hr as [|? ? Hn Hr']; subst.
  assert (Hc : convertible (map int_to_ip (n :: ns))).
  { apply Forall_forall. intros t Ht. apply in_map_iff in Ht.
    destruct Ht as (x & <- & _). exists (x mod 2 ^ 32). apply ip_to_int_int_to_ip. }
  cbn [map] in Hc |- *. rewrite (process_ips_items _ _ Hc).
  rewrite (value_eq _ _ (int_to_ip_then_ip_to_int _ Hn)).
  rewrite (items_canonical _ Hr'). cbn [fill_all]. f_equal.
  apply fill_canonical; auto. lia.
Qed.

Lemma fill_values_range rest :
  forall s p,
    Forall in_range rest -> in_range s -> in_range p -> s <= p ->
    Forall in_range (fill_values s p rest).
Proof.
  assert (Hrg : forall s p, in_range s -> in_range p ->
                  Forall in_range (py_range s (p + 1))).
  { intros s p Hs Hp. apply Forall_forall. intros x Hx. apply py_range_In in Hx.
    unfold in_range in *. lia. }
  induction rest as [|c rest IH]; intros s p Hr Hs Hp Hle; cbn [fill_values];
    [now apply Hrg|].
  inversion Hr as [|? ? Hc Hr']; subst.
  destruct (extends_value p c) eqn:Hx.
  - apply IH; auto.
    unfold extends_value in Hx. apply andb_true_iff in Hx.
    destruct Hx as [_ Hx]. apply andb_true_iff in Hx. destruct Hx as [Hx _].
    apply Z.ltb_lt in Hx. lia.
  - apply Forall_app. split; [now apply Hrg|]. apply IH; auto. lia.
Qed.

Lemma fill_all_range ns : Forall in_range ns -> Forall in_range (fill_all ns).
Proof.
  destruct ns as [|n ns]; intros H; [constructor|].
  inversion H; subst. apply fill_values_range; auto. lia.
Qed.

(** A run of consecutive values inside one /24 is taken up by the open
    segment. *)
Lemma fill_values_run n :
  forall s q p rest,
    p = q + Z.of_nat n -> q / 256 = p / 256 ->
    fill_values s q (py_range (q + 1) (p + 1) ++ rest) = fill_values s p rest.
Proof.
  induction n as [|n IH]; intros s q p rest Hp Hb.
  - replace p with q by lia. now rewrite py_range_nil by lia.
  - rewrite py_range_cons by lia. cbn [app fill_values].
    assert (Hq : q / 256 = (q + 1) / 256) by (Z.div_mod_to_equations; lia).
    assert (Hx : extends_value q (q + 1) = true).
    { unfold extends_value. rewrite <- Hq, Z.eqb_refl.
      replace (q + 1 - q) with 1 by lia. reflexivity. }
    rewrite Hx. apply IH; [lia|congruence].
Qed.

(** Filling what the filler wrote changes nothing. *)
Lemma fill_values_refill rest :
  forall s p,
    s <= p -> s / 256 = p / 256 ->
    exists tail,
      fill_values s p rest = s :: tail /\
      fill_values s s tail = fill_values s p rest.
Proof.
  induction rest as [|c rest IH]; intros s p Hle Hb; cbn [fill_values].
  - exists (py_range (s + 1) (p + 1)). split; [apply py_range_cons; lia|].
    rewrite <- (List.app_nil_r (py_range (s + 1) (p + 1))).
    now rewrite (fill_values_run (Z.to_nat (p - s)) s s p []) by lia.
  - destruct (extends_value p c) eqn:Hx.
    + unfold extends_value in Hx. apply andb_true_iff in Hx.
      destruct Hx as [Hb' Hx]. apply andb_true_iff in Hx. destruct Hx as [Hx _].
      apply Z.eqb_eq in Hb'. apply Z.ltb_lt in Hx.
      apply IH; [lia|congruence].
    + destruct (IH c c (Z.le_refl c) eq_refl) as (tail & Ht & Hr).
      exists (py_range (s + 1) (p + 1) ++ c :: tail). split.
      * rewrite Ht, (py_range_cons s (p + 1)) by lia. reflexivity.
      * rewrite (fill_values_run (Z.to_nat (p - s)) s s p (c :: tail)) by lia.
        cbn [fill_values]. now rewrite Hx, Hr.
Qed.

Lemma fill_all_idempotent ns : fill_all (fill_all ns) = fill_all ns.
Proof.
  destruct ns as [|n ns]; [reflexivity|]. cbn [fill_all].
  destruct (fill_values_refill ns n n (Z.le_refl n) eq_refl) as (tail & Ht & Hr).
  rewrite Ht. cbn [fill_all]. now rewrite Hr.
Qed.

Lemma canonical_fixed ip :
  valid_ip ip = Ret true -> canonical ip = true ->
  in_range (value ip) /\ int_to_ip (value ip) = ip.
Proof.
  intros Hv Hc.
  destruct (valid_ip_inv _ Hv) as (p0 & p1 & p2 & p3 & Hs & H0 & H1 & H2 & H3).
  apply octet_ok_inv in H0, H1, H2, H3.
  destruct H0 as (D0 & a & Ha & Ra), H1 as (D1 & b & Hb & Rb),
           H2 as (D2 & c & Hc' & Rc), H3 as (D3 & d & Hd & Rd).
  unfold canonical in Hc. rewrite Hs in Hc. cbn [forallb] in Hc.
  repeat (apply andb_true_iff in Hc; destruct Hc as [? Hc]).
  assert (Hn : ip_to_int ip = Ret (Z.shiftl a 24 + Z.shiftl b 16 + Z.shiftl c 8 + d)).
  { rewrite (ip_to_int_parts _ _ _ _ _ Hs), Ha, Hb, Hc', Hd. now rewrite !bind_Ret. }
  rewrite (value_eq _ _ Hn).
  destruct (unpack_pack a b c d Ra Rb Rc Rd) as (Hr & Ea & Eb & Ec & Ed).
  split; [exact Hr|].
  unfold int_to_ip. rewrite Ea, Eb, Ec, Ed.
  rewrite (py_str_py_int_digits p0 a), (py_str_py_int_digits p1 b),
    (py_str_py_int_digits p2 c), (py_str_py_int_digits p3 d) by assumption.
  rewrite <- (join_split ip). rewrite Hs. reflexivity.
Qed.

Lemma canonical_list l :
  valid_list l -> Forall (fun ip => canonical ip = true) l ->
  Forall in_range (map value l) /\ map int_to_ip (map value l) = l.
Proof.
  induction 1 as [|ip l Hip _ IH]; intros Hc; [split; [constructor|reflexivity]|].
  inversion Hc as [|? ? Hcip Hc']; subst.
  destruct (canonical_fixed _ Hip Hcip) as [Hr Hf].
  destruct (IH Hc') as [Hrs Hfs]. cbn [map]. split; [now constructor|].
  now rewrite Hf, Hfs.
Qed.

(** X12. On valid addresses written with the ASCII digits [0] to [9]
    and without leading zeros, in any order, [process_ips] is idempotent:
    it returns a list, and filling that list again returns it
    unchanged.  The hypothesis on the characters is there for the same
    reason as in C6: with digits of another script the prefixes, which
    are compared as text, can differ on the first pass and agree on the
    second. *)
Theorem process_ips_idempotent :
  forall l,
    valid_list l ->
    Forall (fun ip => all_chars is_ascii ip = true) l ->
    Forall (fun ip => canonical ip = true) l ->
    exists out, process_ips l = Ret out /\ process_ips out = Ret out.
Proof.
  intros l Hv _ Hc. destruct (canonical_list _ Hv Hc) as [Hr Hf].
  exists (map int_to_ip (fill_all (map value l))). split.
  - rewrite <- Hf at 1. now apply process_ips_canonical.
  - rewrite (process_ips_canonical _ (fill_all_range _ Hr)).
    now rewrite fill_all_idempotent.
Qed.

Lemma process_ips_idempotent_witness :
  exists out,
    process_ips ["10.0.0.9"; "10.0.0.3"; "10.0.0.5"; "10.0.1.1"] = Ret out /\
    process_ips out = Ret out.
Proof.
  apply (process_ips_idempotent ["10.0.0.9"; "10.0.0.3"; "10.0.0.5"; "10.0.1.1"]);
    repeat constructor.
Defined.

(** ** The program on its own output *)

Lemma fill_values_sorted rest :
  forall s p,
    s <= p -> StronglySorted Z.le (p :: rest) ->
    StronglySorted Z.le (fill_values s p rest) /\
    Forall (fun x => s <= x) (fill_values s p rest).
Proof.
  assert (Hrg : forall s p, Forall (fun x => s <= x <= p) (py_range s (p + 1))).
  { intros s p. apply Forall_forall. intros x Hx. apply py_range_In in Hx. lia. }
  induction rest as [|c rest IH]; intros s p Hle Hs; cbn [fill_values].
  - split; [apply py_range_sorted|].
    eapply Forall_impl; [|apply (Hrg s p)]. intros x Hx. cbn beta in Hx. lia.
  - inversion Hs as [|? ? Hs' Hall]; subst. inversion Hall as [|? ? Hpc _]; subst.
    destruct (extends_value p c); [apply IH; [lia|assumption]|].
    destruct (IH c c (Z.le_refl c) Hs') as [Hss Hlow]. split.
    + apply ss_app; [apply py_range_sorted|assumption|].
      intros x y Hx Hy. pose proof (Hrg s p) as Hb.
      rewrite Forall_forall in Hb, Hlow.
      specialize (Hb _ Hx). specialize (Hlow _ Hy). cbn beta in Hb, Hlow. lia.
    + apply Forall_app. split.
      * eapply Forall_impl; [|apply (Hrg s p)]. intros x Hx. cbn beta in Hx. lia.
      * eapply Forall_impl; [|exact Hlow]. intros x Hx. cbn beta in Hx. lia.
Qed.

Lemma fill_all_sorted ns : StronglySorted Z.le ns -> sorted (fill_all ns).
Proof.
  destruct ns as [|n ns]; intros H; [constructor|].
  apply StronglySorted_Sorted. now apply fill_values_sorted.
Qed.

Lemma fill_all_not_nil ns : ns <> [] -> fill_all ns <> [].
Proof.
  destruct ns as [|n ns]; [congruence|]. intros _. cbn [fill_all].
  destruct (fill_values_refill ns n n (Z.le_refl n) eq_refl) as (tail & -> & _).
  discriminate.
Qed.

(** A run of [main] that returns: the values [ms] of the valid lines in
    ascending order, and what was written for them. *)
Lemma main_Ret_inv cw file output w :
  main cw file output = Ret w ->
  exists ms,
    ms <> [] /\ Forall in_range ms /\ StronglySorted Z.le ms /\
    write_output cw (map int_to_ip (fill_all ms)) output = Ret w.
Proof.
  unfold main. intros H. inv_bind H. destruct v as [ips log]. cbn [fst] in H.
  assert (Hval : valid_list ips).
  { destruct (read_ip_file_Ret _ _ Hv) as (flines & _ & E).
    injection E as -> _. apply kept_valid. }
  destruct (valid_list_ints _ Hval) as (ns & Hns & Hr).
  exists (list_sort ns).
  assert (Hne : ips <> []) by (intros ->; discriminate).
  assert (Hrs : Forall in_range (list_sort ns)) by now apply list_sort_Forall.
  split; [|split; [assumption|split]].
  - intros E. apply Hne. apply (f_equal (@List.length Z)) in E.
    rewrite <- (Permutation_length (list_sort_perm ns)) in E.
    rewrite <- (Forall2_length Hns) in E. now destruct ips.
  - apply Sorted_StronglySorted; [exact Z.le_trans|apply list_sort_sorted].
  - destruct ips as [|ip ips]; [congruence|].
    rewrite (sort_ips_ints _ _ Hns), bind_Ret in H.
    now rewrite (process_ips_canonical _ Hrs), bind_Ret in H.
Qed.

(** X13. Whatever [main] writes is a non-empty list of valid addresses
    in canonical form, one per line, with their number as the total; the
    reader reads these lines back as the same addresses, without a
    warning. *)
Theorem main_output_readable :
  forall can_write file output_file w,
    main can_write file output_file = Ret w ->
    exists result,
      lines w = map line_of result /\ result <> [] /\
      valid_list result /\ Forall (fun ip => canonical ip = true) result /\
      total w = Z.of_nat (List.length result) /\
      read_ip_file (Readable (lines w)) = Ret (result, []).
Proof.
  intros cw file output w H.
  destruct (main_Ret_inv _ _ _ _ H) as (ms & Hne & Hr & Hs & Hw).
  destruct (write_output_lines _ _ _ _ Hw) as [Hl Ht].
  exists (map int_to_ip (fill_all ms)).
  assert (Hv : valid_list (map int_to_ip (fill_all ms))).
  { apply Forall_forall. intros t Hin. apply in_map_iff in Hin.
    destruct Hin as (x & <- & _). apply valid_ip_int_to_ip. }
  repeat split; auto.
  - intros E. apply (fill_all_not_nil _ Hne). now destruct (fill_all ms).
  - apply Forall_forall. intros t Hin. apply in_map_iff in Hin.
    destruct Hin as (x & <- & _). apply int_to_ip_canonical.
  - rewrite Hl. now apply read_written.
Qed.

Lemma main_output_readable_witness :
  exists result,
    lines (mk_report Stdout
             (map line_of ["10.0.0.1"; "10.0.0.2"; "10.0.0.3"]) 3)
    = map line_of result /\ result <> [] /\
    valid_list result /\ Forall (fun ip => canonical ip = true) result /\
    total (mk_report Stdout
             (map line_of ["10.0.0.1"; "10.0.0.2"; "10.0.0.3"]) 3)
    = Z.of_nat (List.length result) /\
    read_ip_file
      (Readable (lines (mk_report Stdout
                          (map line_of ["10.0.0.1"; "10.0.0.2"; "10.0.0.3"]) 3)))
    = Ret (result, []).
Proof.
  apply (main_output_readable (fun _ => true)
           (Readable [line_of "010.0.0.3"; line_of "bad"; line_of "10.0.0.1"]) None).
  vm_compute. reflexivity.
Defined.

(** X14. Running the program on what it wrote gives the same report:
    when [main] returns [w], [main] on the lines of [w], with the same
    output argument, returns [w] again. *)
Theorem main_idempotent :
  forall can_write file output_file w,
    main can_write file output_file = Ret w ->
    main can_write (Readable (lines w)) output_file = Ret w.
Proof.
  intros cw file output w H.
  destruct (main_Ret_inv _ _ _ _ H) as (ms & Hne & Hr & Hs & Hw).
  destruct (write_output_lines _ _ _ _ Hw) as [Hl _].
  set (V := fill_all ms) in *.
  assert (HV : Forall in_range V) by now apply fill_all_range.
  assert (Hv : valid_list (map int_to_ip V)).
  { apply Forall_forall. intros t Hin. apply in_map_iff in Hin.
    destruct Hin as (x & <- & _). apply valid_ip_int_to_ip. }
  unfold main. rewrite Hl, (read_written _ Hv), bind_Ret. cbn [fst].
  assert (Hsort : sort_ips (map int_to_ip V) = Ret (map int_to_ip V)).
  { rewrite (sort_ips_ints _ V) by now apply ints_of_map_int_to_ip.
    now rewrite (list_sort_id V (fill_all_sorted ms Hs)). }
  assert (Hfill : process_ips (map int_to_ip V) = Ret (map int_to_ip V)).
  { rewrite (process_ips_canonical _ HV). unfold V.
    now rewrite fill_all_idempotent. }
  destruct (map int_to_ip V) as [|t ts] eqn:E.
  - exfalso. apply (fill_all_not_nil _ Hne). fold V. now destruct V.
  - now rewrite Hsort, bind_Ret, Hfill, bind_Ret.
Qed.

Lemma main_idempotent_witness :
  main (fun _ => true)
    (Readable (lines (mk_report (File "out.txt")
                        (map line_of ["10.0.0.1"; "10.0.0.2"; "10.0.0.3"]) 3)))
    (Some "out.txt")
  = Ret (mk_report (File "out.txt")
           (map line_of ["10.0.0.1"; "10.0.0.2"; "10.0.0.3"]) 3).
Proof.
  apply (main_idempotent (fun _ => true)
           (Readable [line_of "010.0.0.3"; line_of "bad"; line_of "10.0.0.1"])
           (Some "out.txt")).
  vm_compute. reflexivity.
Defined.

(** X15. On a file read to its end, of ASCII characters and with no
    line longer than 4300 characters, that has at least one valid line,
    [main] does not exit early: whenever the output file, if one is
    named, can be written, it returns a report, sent to that file when
    the path is not empty and to the console otherwise. *)
Theorem main_ascii_succeeds :
  forall can_write file_lines output_file,
    Forall plain file_lines ->
    kept file_lines <> [] ->
    (forall path, output_file = Some path -> path <> "" -> can_write path = true) ->
    exists w,
      main can_write (Readable file_lines) output_file = Ret w /\
      dest w = match output_file with
               | Some (String c path) => File (String c path)
               | _ => Stdout
               end.
Proof.
  intros cw flines output Ha Hne Hcw. unfold main.
  rewrite (read_ip_file_ascii _ Ha), bind_Ret. cbn [fst].
  destruct (pipeline_valid (kept flines) (kept_valid flines))
    as (S & R & HS & HR & _).
  destruct (kept flines) as [|ip ips] eqn:Ek; [congruence|].
  rewrite HS, bind_Ret, HR, bind_Ret. unfold write_output.
  destruct output as [[|c p]|].
  - eexists. split; reflexivity.
  - rewrite (Hcw (String c p) eq_refl) by discriminate.
    eexists. split; reflexivity.
  - eexists. split; reflexivity.
Qed.

Lemma main_ascii_succeeds_witness :
  exists w,
    main (fun _ => true)
      (Readable [line_of "10.0.0.7"; line_of "x"; line_of " 10.0.0.3"])
      (Some "")
    = Ret w /\
    dest w = Stdout.
Proof.
  apply (main_ascii_succeeds (fun _ => true)
           [line_of "10.0.0.7"; line_of "x"; line_of " 10.0.0.3"] (Some "")).
  - repeat constructor; vm_compute; discriminate.
  - vm_compute. discriminate.
  - reflexivity.
Defined.
